(** * Seed-data bootstrap of the blog template: a shallow embedding

    The bootstrap script is sequential glue over the host framework's
    configuration store, query engine, upload service and document service.
    It is embedded here as a state-and-exception monad over an explicit
    [World]: the persistent back-end state, the JavaScript heap holding the
    content-block objects, and the console.  The collaborators' failures
    (store, permission creation, file system, upload, document creation) are
    decided by an environment [Env], so that every function below is a total,
    executable Rocq function. *)

From Stdlib Require Import ZArith NArith String Ascii.
From stdpp Require Import base option list gmap strings.

Open Scope string_scope.
Open Scope list_scope.
Set Warnings "-register-all".

(** ** JavaScript strings

    A JavaScript string is a sequence of UTF-16 code units.  The regular
    expression and [split] calls of the script work on code units, so file
    names and block tags are lists of code units; property names, which are
    only ever compared, are plain [string]s. *)

Definition jsstring := list N.

Definition js (s : string) : jsstring :=
  map (fun a : ascii => N_of_ascii a) (list_ascii_of_string s).

Definition DOT : N := 46%N.

(** LineTerminator of the language: LF, CR, LS and PS.  The pattern character
    [.] of a regular expression without the [s] flag matches every code unit
    but these. *)
Definition isLineTerminator (c : N) : bool :=
  (c =? 10)%N || (c =? 13)%N || (c =? 8232)%N || (c =? 8233)%N.

(** [fileName.replace(/\..*$/, '')].  The pattern matches at the leftmost dot
    from which [.*] can reach the end of the input ([$] without the [m] flag
    is the end of the input only), that is the leftmost dot followed by no
    line terminator; the match runs to the end of the string and is removed.
    Without such a dot the string is returned as it is. *)
Fixpoint strip_ext (s : jsstring) : jsstring :=
  match s with
  | [] => []
  | c :: t =>
      if (c =? DOT)%N && forallb (fun d => negb (isLineTerminator d)) t
      then []
      else c :: strip_ext t
  end.

(** [s.split('.')]: the segments between dots, never an empty array. *)
Fixpoint split_dot (s : jsstring) : list jsstring :=
  match s with
  | [] => [[]]
  | c :: t =>
      if (c =? DOT)%N then [] :: split_dot t
      else match split_dot t with
           | seg :: segs => (c :: seg) :: segs
           | [] => [[c]]
           end
  end.

(** [fileName.split('.').shift()] *)
Definition first_segment (s : jsstring) : jsstring :=
  match split_dot s with
  | seg :: _ => seg
  | [] => []
  end.

(** [filePath.split(".").pop()] *)
Definition last_segment (s : jsstring) : jsstring :=
  match last (split_dot s) with
  | Some seg => seg
  | None => []
  end.

(** The iterator of a string yields its code points: a high surrogate
    followed by a low surrogate is one element. *)
Definition isHighSurrogate (c : N) : bool := (55296 <=? c)%N && (c <=? 56319)%N.
Definition isLowSurrogate (c : N) : bool := (56320 <=? c)%N && (c <=? 57343)%N.

Fixpoint string_iterator (s : jsstring) : list jsstring :=
  match s with
  | [] => []
  | c :: t =>
      match t with
      | d :: t' =>
          if isHighSurrogate c && isLowSurrogate d
          then [c; d] :: string_iterator t'
          else [c] :: string_iterator t
      | [] => [[c]]
      end
  end.

(** ** Values, objects and the heap *)

Definition loc := nat.

(** What [getFileData] hands to the upload service. *)
Record FileData := mkFileData {
  filepath : jsstring;
  originalFilename : jsstring;
  type : option jsstring;       (* [mime.lookup] answers a string or [false] *)
  mimetype : option jsstring;
  ext : jsstring;
  size : Z;
}.

(** A record of the asset store ([plugin::upload.file]). *)
Record FileRecord := mkFileRecord {
  file_id : nat;
  file_name : jsstring;
  file_alternativeText : jsstring;
  file_caption : jsstring;
  file_data : FileData;
}.

Inductive value : Type :=
  | VUndef
  | VNull
  | VBool (b : bool)
  | VNum (n : Z)
  | VStr (s : jsstring)
  | VFile (r : FileRecord)      (* an asset record answered by the back end *)
  | VList (l : list value)
  | VRef (l : loc).             (* an object of the heap *)

(** An object is its own properties; the heap is the sequence of objects
    allocated so far, an object's address being its index. *)
Abbreviation obj := (gmap string value).
Abbreviation heap_t := (list obj).

(** [o.k]: a missing property reads as [undefined]. *)
Definition obj_get (o : obj) (k : string) : value := default VUndef (o !! k).

Inductive exn :=
  | TypeError (msg : string)
  | Failure (origin : string) (detail : jsstring).

Inductive Res (A : Type) : Type :=
  | Ok (a : A)
  | Throw (e : exn).
Arguments Ok {A} a.
Arguments Throw {A} e.

Inductive LogEntry :=
  | LogMsg (msg : string)                                  (* console.log(msg) *)
  | LogError (e : exn)                                     (* console.error(error) *)
  | LogDocument (model : jsstring) (document : obj) (e : exn).
                                       (* console.error({ model, document, error }) *)

(** ** The world *)

Record World := mkWorld {
  initHasRun : option bool;              (* key "initHasRun" of the plugin store *)
  public_role : option nat;              (* id of the role of type "public" *)
  permissions : list (jsstring * nat);   (* (action, role) permission records *)
  files : list FileRecord;               (* the asset store *)
  upload_log : list (FileData * jsstring); (* calls of the upload service *)
  documents : list (jsstring * obj);     (* published documents, by model *)
  heap : heap_t;
  console : list LogEntry;
  ticks : nat;                           (* readings of the clock so far *)
}.

Definition set_initHasRun (v : option bool) (w : World) : World :=
  mkWorld v (public_role w) (permissions w) (files w) (upload_log w)
          (documents w) (heap w) (console w) (ticks w).
Definition set_permissions (v : list (jsstring * nat)) (w : World) : World :=
  mkWorld (initHasRun w) (public_role w) v (files w) (upload_log w)
          (documents w) (heap w) (console w) (ticks w).
Definition set_files (v : list FileRecord) (w : World) : World :=
  mkWorld (initHasRun w) (public_role w) (permissions w) v (upload_log w)
          (documents w) (heap w) (console w) (ticks w).
Definition set_upload_log (v : list (FileData * jsstring)) (w : World) : World :=
  mkWorld (initHasRun w) (public_role w) (permissions w) (files w) v
          (documents w) (heap w) (console w) (ticks w).
Definition set_documents (v : list (jsstring * obj)) (w : World) : World :=
  mkWorld (initHasRun w) (public_role w) (permissions w) (files w) (upload_log w)
          v (heap w) (console w) (ticks w).
Definition set_heap (v : heap_t) (w : World) : World :=
  mkWorld (initHasRun w) (public_role w) (permissions w) (files w) (upload_log w)
          (documents w) v (console w) (ticks w).
Definition set_console (v : list LogEntry) (w : World) : World :=
  mkWorld (initHasRun w) (public_role w) (permissions w) (files w) (upload_log w)
          (documents w) (heap w) v (ticks w).
Definition set_ticks (v : nat) (w : World) : World :=
  mkWorld (initHasRun w) (public_role w) (permissions w) (files w) (upload_log w)
          (documents w) (heap w) (console w) v.

(** ** The environment: collaborators outside the script

    The seed data of [data/data.json], typed as the script uses them, the
    pure helpers of the [path] and [mime-types] modules, and the oracles that
    decide which calls of a collaborator fail. *)

Record Article := mkArticle {
  slug : jsstring;
  article_blocks : list loc;
  article_fields : obj;          (* the remaining properties *)
}.

Record Author := mkAuthor {
  avatar : value;
  author_fields : obj;
}.

Record Global := mkGlobal {
  defaultSeo : obj;
  global_fields : obj;
}.

Record About := mkAbout {
  about_blocks : list loc;
  about_fields : obj;
}.

Record Env := mkEnv {
  categories : list obj;
  authors : list Author;
  articles : list Article;
  global : Global;
  about : About;
  path_join_uploads : jsstring -> jsstring;   (* path.join("data", "uploads", f) *)
  path_resolve : jsstring -> jsstring;
  mime_lookup : jsstring -> option jsstring;
  statSync_size : jsstring -> Res Z;          (* fs.statSync(p)["size"], or its error *)
  clock : nat -> Z;                           (* the n-th reading of Date.now() *)
  store_get_fault : option exn;
  store_set_fault : option exn;
  permission_fault : jsstring -> option exn;
  upload_fault : FileData -> jsstring -> option exn;
  create_fault : jsstring -> obj -> option exn;
}.

(** ** The monad of the script: state, and exceptions that keep the state *)

Definition M (A : Type) : Type := World -> Res A * World.

Definition ret {A} (a : A) : M A := fun w => (Ok a, w).
Definition throw {A} (e : exn) : M A := fun w => (Throw e, w).
Definition bind {A B} (m : M A) (k : A -> M B) : M B :=
  fun w => match m w with
           | (Ok a, w') => k a w'
           | (Throw e, w') => (Throw e, w')
           end.
(** [try { body } catch (error) { handler }] *)
Definition try_catch {A} (body : M A) (handler : exn -> M A) : M A :=
  fun w => match body w with
           | (Ok a, w') => (Ok a, w')
           | (Throw e, w') => handler e w'
           end.
Definition gets {A} (f : World -> A) : M A := fun w => (Ok (f w), w).
Definition modify (f : World -> World) : M unit := fun w => (Ok tt, f w).

Notation "x <- c1 ;; c2" := (bind c1 (fun x => c2))
  (at level 100, c1 at next level, right associativity).
Notation "c1 ;;; c2" := (bind c1 (fun _ => c2))
  (at level 100, right associativity).

Definition console_log (msg : string) : M unit :=
  modify (fun w => set_console (console w ++ [LogMsg msg]) w).
Definition console_error (entry : LogEntry) : M unit :=
  modify (fun w => set_console (console w ++ [entry]) w).

(** JavaScript truthiness of the stored flag: unset reads as [undefined]. *)
Definition truthy (v : option bool) : bool := default false v.

Section Bootstrap.

Variable E : Env.

(** *** The plugin store *)

Definition pluginStore_get : M (option bool) :=
  match store_get_fault E with
  | Some e => throw e
  | None => gets initHasRun
  end.

Definition pluginStore_set (v : bool) : M unit :=
  match store_set_fault E with
  | Some e => throw e
  | None => modify (set_initHasRun (Some v))
  end.

Definition isFirstRun : M bool :=
  initHasRun <- pluginStore_get ;;
  pluginStore_set true ;;;
  ret (negb (truthy initHasRun)).

(** *** Public permissions *)

Definition query_public_role : M (option nat) := gets public_role.

(** [`api::${controller}.${controller}.${action}`] *)
Definition permission_action (controller action : jsstring) : jsstring :=
  js "api::" ++ controller ++ js "." ++ controller ++ js "." ++ action.

(** [strapi.query("plugin::users-permissions.permission").create(...)]: the
    call is issued at once and answers a promise; the value here is how that
    promise settles ([None]: fulfilled, the record exists). *)
Definition permission_create (action : jsstring) (role : nat) : M (option exn) :=
  match permission_fault E action with
  | Some e => ret (Some e)
  | None =>
      modify (fun w => set_permissions (permissions w ++ [(action, role)]) w) ;;;
      ret None
  end.

(** [actions.map((action) => ...create({ data: { action, role: publicRole.id } }))]:
    reading [publicRole.id] of a missing role is a TypeError, raised before
    the first call is issued. *)
Fixpoint permissionsToCreate (publicRole : option nat) (controller : jsstring)
    (actions : list jsstring) : M (list (option exn)) :=
  match actions with
  | [] => ret []
  | action :: rest =>
      match publicRole with
      | None => throw (TypeError "Cannot read properties of null (reading 'id')")
      | Some id =>
          p <- permission_create (permission_action controller action) id ;;
          ps <- permissionsToCreate publicRole controller rest ;;
          ret (p :: ps)
      end
  end.

(** [Object.keys(newPermissions).map(...)]: [newPermissions] is the list of
    the object's entries in the order of [Object.keys].  For an object
    literal whose keys are distinct and not integer-like, as the table of the
    script, that is the order in which the entries are written; integer-like
    keys would come first, in ascending order. *)
Fixpoint allPermissionsToCreate (publicRole : option nat)
    (newPermissions : list (jsstring * list jsstring)) : M (list (option exn)) :=
  match newPermissions with
  | [] => ret []
  | (controller, actions) :: rest =>
      ps <- permissionsToCreate publicRole controller actions ;;
      qs <- allPermissionsToCreate publicRole rest ;;
      ret (ps ++ qs)
  end.

(** [await Promise.all(promises)]: every call has been issued; the aggregate
    rejects with a rejection of one of them.  Which refusal settles first,
    and which creations are still pending at that moment, is a matter of
    timing that this sequential model does not have: it takes the first
    refusal in issue order, with every creation settled.  What is stated of
    a rejected aggregate below depends on neither choice. *)
Definition promise_all (promises : list (option exn)) : M unit :=
  match omap id promises with
  | e :: _ => throw e
  | [] => ret tt
  end.

Definition setPublicPermissions (newPermissions : list (jsstring * list jsstring))
    : M unit :=
  publicRole <- query_public_role ;;
  promises <- allPermissionsToCreate publicRole newPermissions ;;
  promise_all promises.

(** *** Files *)

Definition getFileSizeInBytes (filePath : jsstring) : M Z :=
  match statSync_size E filePath with
  | Ok fileSizeInBytes => ret fileSizeInBytes
  | Throw e => throw e
  end.

Definition getFileData (fileName : jsstring) : M FileData :=
  let filePath := path_join_uploads E fileName in
  match statSync_size E filePath with
  | Throw e => throw e
  | Ok size =>
      let ext := last_segment filePath in
      let mimeType := mime_lookup E ext in
      ret (mkFileData (path_resolve E filePath) fileName mimeType mimeType ext size)
  end.

Definition fresh_id (fs : list FileRecord) : nat :=
  S (foldr Nat.max 0 (file_id <$> fs)).

(** The upload service of the host: [upload({ files, data: { fileInfo } })]
    stores one record for the file under [fileInfo.name] and answers the
    array of the records it created.  Every call is entered in [upload_log]. *)
Definition upload_service (file : FileData)
    (alternativeText caption name : jsstring) : M (list value) :=
  modify (fun w => set_upload_log (upload_log w ++ [(file, name)]) w) ;;;
  match upload_fault E file name with
  | Some e => throw e
  | None =>
      stored <- gets files ;;
      let r := mkFileRecord (fresh_id stored) name alternativeText caption file in
      modify (set_files (stored ++ [r])) ;;;
      ret [VFile r]
  end.

Definition uploadFile (file : FileData) (name : jsstring) : M (list value) :=
  upload_service file (js "An image uploaded to Strapi called " ++ name) name name.

(** [strapi.query("plugin::upload.file").findOne({ where: { name } })]: the
    first record of that name, or [null]. *)
Definition findOne_file (name : jsstring) : M (option FileRecord) :=
  stored <- gets files ;;
  ret (List.find (fun r => bool_decide (file_name r = name)) stored).

(** [[...files]] *)
Definition spread (v : value) : M (list value) :=
  match v with
  | VList l => ret l
  | VStr s => ret (VStr <$> string_iterator s)
  | _ => throw (TypeError "files is not iterable")
  end.

(** One turn of the loop of [checkFileExistsBeforeUpload]: [inl] is a record
    found in the asset store, [inr] the answer of an upload. *)
Definition resolve_file (fileName : value) : M (value + value) :=
  match fileName with
  | VStr s =>
      fileWhereName <- findOne_file (strip_ext s) ;;
      match fileWhereName with
      | Some r => ret (inl (VFile r))
      | None =>
          fileData <- getFileData s ;;
          let fileNameNoExtension := first_segment s in
          uploaded <- uploadFile fileData fileNameNoExtension ;;
          (* const [file] = ... *)
          ret (inr (default VUndef (head uploaded)))
      end
  | _ => throw (TypeError "fileName.replace is not a function")
  end.

Fixpoint checkFile_loop (filesCopy : list value)
    (existingFiles uploadedFiles : list value) : M (list value * list value) :=
  match filesCopy with
  | [] => ret (existingFiles, uploadedFiles)
  | fileName :: rest =>
      r <- resolve_file fileName ;;
      match r with
      | inl fileWhereName =>
          checkFile_loop rest (existingFiles ++ [fileWhereName]) uploadedFiles
      | inr file =>
          checkFile_loop rest existingFiles (uploadedFiles ++ [file])
      end
  end.

Definition checkFileExistsBeforeUpload (files : value) : M value :=
  filesCopy <- spread files ;;
  lists <- checkFile_loop filesCopy [] [] ;;
  let allFiles := lists.1 ++ lists.2 in
  ret (if (length allFiles =? 1)%nat
       then default VUndef (allFiles !! 0%nat)
       else VList allFiles).

(** *** Blocks *)

(** A dangling address reads as an object without properties. *)
Definition read_object (l : loc) : M obj :=
  h <- gets heap ;; ret (default ∅ (h !! l)).

Definition get_field (l : loc) (k : string) : M value :=
  o <- read_object l ;; ret (obj_get o k).

(** [{ ...o }] *)
Definition alloc (o : obj) : M loc :=
  h <- gets heap ;;
  modify (set_heap (h ++ [o])) ;;;
  ret (length h).

(** [l.k = v] *)
Definition write_field (l : loc) (k : string) (v : value) : M unit :=
  modify (fun w => set_heap (alter (insert k v) l (heap w)) w).

(** [v === s] for a string literal [s] *)
Definition is_string (v : value) (s : jsstring) : bool :=
  match v with
  | VStr t => bool_decide (t = s)
  | _ => false
  end.

Fixpoint updateBlocks_loop (blocks : list loc) (updatedBlocks : list loc)
    : M (list loc) :=
  match blocks with
  | [] => ret updatedBlocks
  | block :: rest =>
      component <- get_field block "__component" ;;
      if is_string component (js "shared.media") then
        file <- get_field block "file" ;;
        uploadedFiles <- checkFileExistsBeforeUpload (VList [file]) ;;
        o <- read_object block ;;
        blockCopy <- alloc o ;;
        write_field blockCopy "file" uploadedFiles ;;;
        updateBlocks_loop rest (updatedBlocks ++ [blockCopy])
      else if is_string component (js "shared.slider") then
        files <- get_field block "files" ;;
        existingAndUploadedFiles <- checkFileExistsBeforeUpload files ;;
        o <- read_object block ;;
        blockCopy <- alloc o ;;
        write_field blockCopy "files" existingAndUploadedFiles ;;;
        updateBlocks_loop rest (updatedBlocks ++ [blockCopy])
      else
        updateBlocks_loop rest (updatedBlocks ++ [block])
  end.

Definition updateBlocks (blocks : list loc) : M (list loc) :=
  updateBlocks_loop blocks [].

(** *** Documents *)

(** [strapi.documents(model).create({ data, status: "published" })] *)
Definition documents_create (model : jsstring) (data : obj) : M unit :=
  match create_fault E model data with
  | Some e => throw e
  | None => modify (fun w => set_documents (documents w ++ [(model, data)]) w)
  end.

Definition createDocument (model : jsstring) (document : obj) : M unit :=
  try_catch (documents_create model document)
            (fun error => console_error (LogDocument model document error)).

Definition date_now : M value :=
  t <- gets ticks ;;
  modify (set_ticks (S t)) ;;;
  ret (VNum (clock E t)).

Definition blocks_value (blocks : list loc) : value := VList (VRef <$> blocks).

(** [{ ...article }] *)
Definition article_obj (a : Article) : obj :=
  <["blocks" := blocks_value (article_blocks a)]>
    (<["slug" := VStr (slug a)]> (article_fields a)).

Definition importArticle (article : Article) : M unit :=
  cover <- checkFileExistsBeforeUpload (VList [VStr (slug article ++ js ".jpg")]) ;;
  updatedBlocks <- updateBlocks (article_blocks article) ;;
  publishedAt <- date_now ;;
  createDocument (js "api::article.article")
    (<["status" := VStr (js "published")]>
      (<["publishedAt" := publishedAt]>
        (<["blocks" := blocks_value updatedBlocks]>
          (<["cover" := cover]> (article_obj article))))).

Fixpoint importArticles_loop (l : list Article) : M unit :=
  match l with
  | [] => ret tt
  | article :: rest => importArticle article ;;; importArticles_loop rest
  end.

Definition importArticles : M unit := importArticles_loop (articles E).

Definition importGlobal : M unit :=
  favicon <- checkFileExistsBeforeUpload (VList [VStr (js "favicon.png")]) ;;
  shareImage <- checkFileExistsBeforeUpload (VList [VStr (js "default-image.png")]) ;;
  publishedAt <- date_now ;;
  seo <- alloc (<["shareImage" := shareImage]> (defaultSeo (global E))) ;;
  createDocument (js "api::global.global")
    (<["defaultSeo" := VRef seo]>
      (<["publishedAt" := publishedAt]>
        (<["favicon" := favicon]> (global_fields (global E))))).

Definition importAbout : M unit :=
  updatedBlocks <- updateBlocks (about_blocks (about E)) ;;
  publishedAt <- date_now ;;
  createDocument (js "api::about.about")
    (<["publishedAt" := publishedAt]>
      (<["blocks" := blocks_value updatedBlocks]> (about_fields (about E)))).

Fixpoint importCategories_loop (l : list obj) : M unit :=
  match l with
  | [] => ret tt
  | category :: rest =>
      createDocument (js "api::category.category") category ;;;
      importCategories_loop rest
  end.

Definition importCategories : M unit := importCategories_loop (categories E).

Definition importAuthor (author : Author) : M unit :=
  avatar <- checkFileExistsBeforeUpload (VList [avatar author]) ;;
  createDocument (js "api::author.author")
    (<["avatar" := avatar]> (author_fields author)).

Fixpoint importAuthors_loop (l : list Author) : M unit :=
  match l with
  | [] => ret tt
  | author :: rest => importAuthor author ;;; importAuthors_loop rest
  end.

Definition importAuthors : M unit := importAuthors_loop (authors E).

Definition find_findOne : list jsstring := [js "find"; js "findOne"].

Definition importSeedData : M unit :=
  setPublicPermissions
    [ (js "article", find_findOne);
      (js "category", find_findOne);
      (js "author", find_findOne);
      (js "global", find_findOne);
      (js "about", find_findOne) ] ;;;
  importCategories ;;;
  importAuthors ;;;
  importArticles ;;;
  importGlobal ;;;
  importAbout.

(** The function the module exports, called by the host at start-up. *)
Definition module_exports : M unit :=
  shouldImportSeedData <- isFirstRun ;;
  if shouldImportSeedData then
    try_catch
      (console_log "Setting up the template..." ;;;
       importSeedData ;;;
       console_log "Ready to go")
      (fun error =>
         console_log "Could not import seed data" ;;;
         console_error (LogError error))
  else ret tt.

End Bootstrap.

(** ** Auxiliary definitions for the statements *)

(** The prefix of a string before its first dot. *)
Fixpoint before_first_dot (s : jsstring) : jsstring :=
  match s with
  | [] => []
  | c :: t => if (c =? DOT)%N then [] else c :: before_first_dot t
  end.

Definition no_line_terminator (s : jsstring) : bool :=
  forallb (fun d => negb (isLineTerminator d)) s.

(** A computation leaves the observation [f] of the world as it was. *)
Definition preserves {X A} (f : World -> X) (m : M A) : Prop :=
  forall w, f (m w).2 = f w.

(** Successive start-ups of the host, each with its own environment. *)
Definition run_invocations (Es : list Env) (w : World) : World :=
  foldl (fun w E => (module_exports E w).2) w Es.

Definition store_reachable (E : Env) : Prop :=
  store_get_fault E = None /\ store_set_fault E = None.

(** A small concrete setting: nothing fails, nothing is stored yet. *)
Definition quiet_env : Env :=
  mkEnv [] [] [] (mkGlobal ∅ ∅) (mkAbout [] ∅)
    (fun f => js "data/uploads/" ++ f) (fun p => js "/srv/" ++ p)
    (fun e => Some (js "image/" ++ e))
    (fun _ => Ok 1024%Z) (fun n => Z.of_nat n)
    None None (fun _ => None) (fun _ _ => None) (fun _ _ => None).

Definition empty_world : World := mkWorld None (Some 2%nat) [] [] [] [] [] [] 0.

Definition store_down : exn := Failure "store" (js "connection refused").

Definition store_down_env : Env :=
  mkEnv [] [] [] (mkGlobal ∅ ∅) (mkAbout [] ∅)
    (fun f => js "data/uploads/" ++ f) (fun p => js "/srv/" ++ p)
    (fun e => Some (js "image/" ++ e))
    (fun _ => Ok 1024%Z) (fun n => Z.of_nat n)
    (Some store_down) None (fun _ => None) (fun _ _ => None) (fun _ _ => None).

(** The turns of the resolver's loop, one after the other: the answers in
    the order of the input. *)
Fixpoint resolve_all (E : Env) (fileNames : list value) : M (list (value + value)) :=
  match fileNames with
  | [] => ret []
  | fileName :: rest =>
      r <- resolve_file E fileName ;;
      rs <- resolve_all E rest ;;
      ret (r :: rs)
  end.

(** The records found in the asset store, and the answers of the uploads. *)
Definition found_of (rs : list (value + value)) : list value :=
  omap (fun r => match r with inl v => Some v | inr _ => None end) rs.
Definition uploaded_of (rs : list (value + value)) : list value :=
  omap (fun r => match r with inl _ => None | inr v => Some v end) rs.
Definition untag (r : value + value) : value :=
  match r with inl v | inr v => v end.

(** What [getFileData] computes for a file of the given size. *)
Definition file_data_of (E : Env) (fileName : jsstring) (size : Z) : FileData :=
  let filePath := path_join_uploads E fileName in
  let mimeType := mime_lookup E (last_segment filePath) in
  mkFileData (path_resolve E filePath) fileName mimeType mimeType
             (last_segment filePath) size.

(** The record the upload service stores for a file. *)
Definition uploaded_record (E : Env) (stored : list FileRecord)
    (fileName : jsstring) (size : Z) : FileRecord :=
  let name := first_segment fileName in
  mkFileRecord (fresh_id stored) name
    (js "An image uploaded to Strapi called " ++ name) name
    (file_data_of E fileName size).

Definition lookup_file (name : jsstring) (stored : list FileRecord)
    : option FileRecord :=
  List.find (fun r => bool_decide (file_name r = name)) stored.

(** The file can be read and the upload service accepts it. *)
Definition uploadable (E : Env) (fileName : jsstring) : bool :=
  match statSync_size E (path_join_uploads E fileName) with
  | Ok size =>
      match upload_fault E (file_data_of E fileName size) (first_segment fileName) with
      | None => true
      | Some _ => false
      end
  | Throw _ => false
  end.

(** No file name is looked up under the name an earlier one is uploaded
    under. *)
Fixpoint fresh_keys (fileNames : list jsstring) : bool :=
  match fileNames with
  | [] => true
  | f :: rest =>
      forallb (fun g => negb (bool_decide (strip_ext g = first_segment f))) rest
      && fresh_keys rest
  end.

(** The answer [r] is an asset record for the file name [f]: found under the
    stripped name, or uploaded from that very file. *)
Definition answers (f : jsstring) (r : value + value) : Prop :=
  match r with
  | inl (VFile rec) => file_name rec = strip_ext f
  | inr (VFile rec) =>
      file_name rec = first_segment f /\ originalFilename (file_data rec) = f
  | _ => False
  end.

(** The value the resolver returns for the records it gathered. *)
Definition one_or_all (recs : list FileRecord) : value :=
  match recs with
  | [r] => VFile r
  | _ => VList (VFile <$> recs)
  end.

(** An asset store that already holds a record named "old". *)
Definition old_record : FileRecord :=
  mkFileRecord 7 (js "old") (js "An old image") (js "old")
    (mkFileData (js "/srv/data/uploads/old.jpg") (js "old.jpg")
                (Some (js "image/jpeg")) (Some (js "image/jpeg")) (js "jpg") 2048).

Definition world_with_old : World := set_files [old_record] empty_world.

(** The file name "a.b", a line feed, "c". *)
Definition two_line_name : jsstring := [97; 46; 98; 10; 99]%N.

(** Blocks by their tag. *)
Definition is_media (o : obj) : bool :=
  is_string (obj_get o "__component") (js "shared.media").
Definition is_slider (o : obj) : bool :=
  is_string (obj_get o "__component") (js "shared.slider").

(** What [updateBlocks] asks of the resolver for a block: the property to
    replace and the argument of the call; nothing for the other tags. *)
Definition update_request (o : obj) : option (string * value) :=
  if is_media o then Some ("file", VList [obj_get o "file"])
  else if is_slider o then Some ("files", obj_get o "files")
  else None.

(** An asset record, or a sequence of asset records: no file name is left. *)
Definition resolved_files (v : value) : Prop :=
  (exists r, v = VFile r) \/ (exists rs, v = VList (VFile <$> rs)).

Definition resolved_block (o : obj) : Prop :=
  (is_media o = true -> exists r, obj_get o "file" = VFile r)
  /\ (is_slider o = true -> resolved_files (obj_get o "files")).

(** A heap with a rich-text block, a media block and two sliders. *)
Definition text_block : obj :=
  <["body" := VStr (js "Hello")]>
    (<["__component" := VStr (js "shared.rich-text")]> ∅).
Definition media_block : obj :=
  <["file" := VStr (js "coffee-art.jpg")]>
    (<["__component" := VStr (js "shared.media")]> ∅).
Definition slider_block : obj :=
  <["files" := VList [VStr (js "coffee-art.jpg"); VStr (js "old.jpg")]]>
    (<["__component" := VStr (js "shared.slider")]> ∅).
Definition short_slider_block : obj :=
  <["files" := VList [VStr (js "old.jpg")]]>
    (<["__component" := VStr (js "shared.slider")]> ∅).

Definition world_with_blocks : World :=
  set_heap [text_block; media_block; slider_block; short_slider_block]
           world_with_old.

(** The same environment with another oracle for document creation. *)
Definition with_create_fault (f : jsstring -> obj -> option exn) (E : Env) : Env :=
  mkEnv (categories E) (authors E) (articles E) (global E) (about E)
        (path_join_uploads E) (path_resolve E) (mime_lookup E)
        (statSync_size E) (clock E) (store_get_fault E) (store_set_fault E)
        (permission_fault E) (upload_fault E) f.

Definition never_failing (E : Env) : Env := with_create_fault (fun _ _ => None) E.

(** The content store accepts the document. *)
Definition creatable (E : Env) (md : jsstring * obj) : bool :=
  match create_fault E md.1 md.2 with
  | None => true
  | Some _ => false
  end.

(** What [createDocument] logs for the document, if anything. *)
Definition creation_log (E : Env) (md : jsstring * obj) : option LogEntry :=
  LogDocument md.1 md.2 <$> create_fault E md.1 md.2.

(** The world with other documents and another console. *)
Definition set_dc (d : list (jsstring * obj)) (c : list LogEntry) (w : World) : World :=
  set_documents d (set_console c w).

(** A computation neither reads nor writes the documents and the console. *)
Definition dc_frame {A} (m : M A) : Prop :=
  forall w d c, m (set_dc d c w) = ((m w).1, set_dc d c (m w).2).

(** The document [importArticles] assembles for an article. *)
Definition article_document (E : Env) (article : Article) : M obj :=
  cover <- checkFileExistsBeforeUpload E (VList [VStr (slug article ++ js ".jpg")]) ;;
  updatedBlocks <- updateBlocks E (article_blocks article) ;;
  publishedAt <- date_now E ;;
  ret (<["status" := VStr (js "published")]>
        (<["publishedAt" := publishedAt]>
          (<["blocks" := blocks_value updatedBlocks]>
            (<["cover" := cover]> (article_obj article))))).

(** Three articles, the second of which the content store refuses. *)
Definition article_of (s : string) : Article :=
  mkArticle (js s) [] (<["title" := VStr (js s)]> ∅).

Definition schema_violation : exn := Failure "documents" (js "ValidationError").

Definition refusing_env : Env :=
  mkEnv [] [] [article_of "first"; article_of "second"; article_of "third"]
    (mkGlobal ∅ ∅) (mkAbout [] ∅)
    (fun f => js "data/uploads/" ++ f) (fun p => js "/srv/" ++ p)
    (fun e => Some (js "image/" ++ e))
    (fun _ => Ok 1024%Z) (fun n => Z.of_nat n)
    None None (fun _ => None) (fun _ _ => None)
    (fun _ d => if is_string (obj_get d "slug") (js "second")
                then Some schema_violation else None).

(** The part of a string after its first dot; empty without a dot. *)
Fixpoint after_first_dot (s : jsstring) : jsstring :=
  match s with
  | [] => []
  | c :: t => if (c =? DOT)%N then t else after_first_dot t
  end.

(** The action identifiers [setPublicPermissions] asks for, in the order
    the calls are issued. *)
Definition all_actions (newPermissions : list (jsstring * list jsstring))
    : list jsstring :=
  concat ((fun ca : jsstring * list jsstring =>
             permission_action ca.1 <$> ca.2) <$> newPermissions).

(** The permission service accepts the action. *)
Definition permission_granted (E : Env) (action : jsstring) : bool :=
  match permission_fault E action with
  | None => true
  | Some _ => false
  end.

(** The world has only grown: nothing stored, allocated or logged before
    is gone or changed. *)
Definition grows (w w' : World) : Prop :=
  public_role w' = public_role w
  /\ permissions w `prefix_of` permissions w'
  /\ files w `prefix_of` files w'
  /\ upload_log w `prefix_of` upload_log w'
  /\ documents w `prefix_of` documents w'
  /\ heap w `prefix_of` heap w'
  /\ console w `prefix_of` console w'
  /\ ticks w <= ticks w'.

Definition monotone {A} (m : M A) : Prop := forall w, grows w (m w).2.

(** The document [importAuthors] hands to the content store. *)
Definition author_document (a : Author) (avatar : value) : jsstring * obj :=
  (js "api::author.author", <["avatar" := avatar]> (author_fields a)).

(** A world without a public role. *)
Definition world_without_role : World :=
  mkWorld None None [] [] [] [] [] [] 0.

(** An environment whose permission service refuses the action
    "api::author.author.find". *)
Definition permission_denied : exn := Failure "permission" (js "duplicate entry").

Definition denying_env : Env :=
  mkEnv [] [] [] (mkGlobal ∅ ∅) (mkAbout [] ∅)
    (fun f => js "data/uploads/" ++ f) (fun p => js "/srv/" ++ p)
    (fun e => Some (js "image/" ++ e))
    (fun _ => Ok 1024%Z) (fun n => Z.of_nat n)
    None None
    (fun a => if bool_decide (a = js "api::author.author.find")
              then Some permission_denied else None)
    (fun _ _ => None) (fun _ _ => None).

(** A table of two controllers, three actions in all. *)
Definition two_controllers : list (jsstring * list jsstring) :=
  [(js "article", [js "find"]); (js "author", find_findOne)].

(** An environment with seed data, in which the file "missing.png" cannot be
    read. *)
Definition no_such_file : exn := Failure "fs" (js "ENOENT").

Definition seeded_env : Env :=
  mkEnv [<["name" := VStr (js "news")]> ∅; <["name" := VStr (js "tech")]> ∅]
    [mkAuthor (VStr (js "david.jpg")) (<["name" := VStr (js "David")]> ∅);
     mkAuthor (VStr (js "missing.png")) (<["name" := VStr (js "Sarah")]> ∅);
     mkAuthor (VStr (js "old.jpg")) (<["name" := VStr (js "Tom")]> ∅)]
    [mkArticle (js "the-internet") [1; 0]%nat (<["title" := VStr (js "Net")]> ∅)]
    (mkGlobal (<["metaTitle" := VStr (js "Blog")]> ∅)
              (<["siteName" := VStr (js "Strapi Blog")]> ∅))
    (mkAbout [0; 2]%nat (<["title" := VStr (js "About")]> ∅))
    (fun f => js "data/uploads/" ++ f) (fun p => js "/srv/" ++ p)
    (fun e => Some (js "image/" ++ e))
    (fun p => if bool_decide (p = js "data/uploads/missing.png")
              then Throw no_such_file else Ok 1024%Z)
    (fun n => Z.of_nat n)
    None None (fun _ => None) (fun _ _ => None) (fun _ _ => None).

(** A key made of decimal digits only: the integer-like keys, which
    [Object.keys] lists before the others, are among these. *)
Definition digits_only (s : jsstring) : bool :=
  match s with
  | [] => false
  | _ => forallb (fun c => (48 <=? c)%N && (c <=? 57)%N) s
  end.

(** [allFiles.length === 1 ? allFiles[0] : allFiles] *)
Definition collapse (allFiles : list value) : value :=
  if (length allFiles =? 1)%nat
  then default VUndef (allFiles !! 0%nat)
  else VList allFiles.

(** The file names the resolver iterates over for the value [v]: the
    elements of an array of strings, or the code points of a string. *)
Definition spreads_to (v : value) (names : list jsstring) : Prop :=
  v = VList (VStr <$> names) \/ exists s, v = VStr s /\ names = string_iterator s.

(** [r] answers the file name [f] with a record of the store [stored]: the
    record the store gives for the stripped name, or a record of the store
    that was uploaded from that very file, under its first segment. *)
Definition answered (stored : list FileRecord) (f : jsstring) (r : value + value)
    : Prop :=
  match r with
  | inl (VFile rec) => lookup_file (strip_ext f) stored = Some rec
  | inr (VFile rec) =>
      file_name rec = first_segment f /\ originalFilename (file_data rec) = f
      /\ rec ∈ stored
  | _ => False
  end.

(** The block [o] of the input has been replaced, at the position that
    holds [c], by a copy in the heap [h] whose file names are resolved with
    records of [stored]. *)
Definition position_resolved (stored : list FileRecord) (h : heap_t) (o : obj)
    (c : option loc) : Prop :=
  (is_media o = true ->
   exists l s r,
     c = Some l /\ obj_get o "file" = VStr s /\ answered stored s r
     /\ h !! l = Some (<["file" := untag r]> o))
  /\ (is_slider o = true ->
      exists l names rs,
        c = Some l /\ spreads_to (obj_get o "files") names
        /\ Forall2 (answered stored) names rs
        /\ h !! l = Some (<["files" := collapse (found_of rs ++ uploaded_of rs)]> o)).

(** The documents of a batch of articles, assembled one after the other
    (file resolution and block update, without the creation). *)
Fixpoint assemble_all (E : Env) (l : list Article) : M (list obj) :=
  match l with
  | [] => ret []
  | article :: rest =>
      doc <- article_document E article ;;
      docs <- assemble_all E rest ;;
      ret (doc :: docs)
  end.

Definition article_entry (doc : obj) : jsstring * obj :=
  (js "api::article.article", doc).

(** The document keeps the article's own properties, but for the four the
    import sets. *)
Definition document_of (a : Article) (doc : obj) : Prop :=
  forall k, k <> "cover" -> k <> "blocks" -> k <> "publishedAt" -> k <> "status" ->
            doc !! k = article_obj a !! k.

(** ** Strings *)

Lemma first_segment_before_first_dot s : first_segment s = before_first_dot s.
Proof.
  unfold first_segment.
  induction s as [|c t IH]; simpl; [done|].
  destruct (c =? DOT)%N; [done|].
  destruct (split_dot t) as [|seg segs]; simpl in *; by rewrite <- IH.
Qed.

Lemma strip_ext_before_first_dot s :
  no_line_terminator s = true -> strip_ext s = before_first_dot s.
Proof.
  unfold no_line_terminator.
  induction s as [|c t IH]; simpl; [done|].
  intros [Hc Ht]%andb_prop. rewrite Ht, andb_true_r.
  destruct (c =? DOT)%N; [done|]. by rewrite IH.
Qed.

Lemma strip_ext_first_segment s :
  no_line_terminator s = true -> strip_ext s = first_segment s.
Proof.
  intros H. by rewrite first_segment_before_first_dot, strip_ext_before_first_dot.
Qed.

Example strip_ext_two_dots : strip_ext (js "photo.small.jpg") = js "photo".
Proof. reflexivity. Qed.

Example strip_ext_no_dot : strip_ext (js "README") = js "README".
Proof. reflexivity. Qed.

Example first_segment_two_dots : first_segment (js "photo.small.jpg") = js "photo".
Proof. reflexivity. Qed.

Example last_segment_path :
  last_segment (js "data/uploads/photo.small.jpg") = js "jpg".
Proof. reflexivity. Qed.

Example split_dot_empty_segments : split_dot (js "a..b") = [js "a"; []; js "b"].
Proof. reflexivity. Qed.

Example string_iterator_surrogates :
  string_iterator [55357; 56832; 97]%N = [[55357; 56832]; [97]]%N.
Proof. reflexivity. Qed.

(** ** Frames *)

Section Preserves.
Context {X : Type} (f : World -> X).

Lemma preserves_ret {A} (a : A) : preserves f (ret a).
Proof. by intros w. Qed.

Lemma preserves_throw {A} e : preserves f (@throw A e).
Proof. by intros w. Qed.

Lemma preserves_gets {A} (g : World -> A) : preserves f (gets g).
Proof. by intros w. Qed.

Lemma preserves_modify g : (forall w, f (g w) = f w) -> preserves f (modify g).
Proof. intros H w. apply H. Qed.

Lemma preserves_bind {A B} (m : M A) (k : A -> M B) :
  preserves f m -> (forall a, preserves f (k a)) -> preserves f (bind m k).
Proof.
  intros Hm Hk w. unfold bind. specialize (Hm w).
  destruct (m w) as [[a|e] w1]; simpl in *; [|done].
  by rewrite Hk.
Qed.

Lemma preserves_try_catch {A} (m : M A) (h : exn -> M A) :
  preserves f m -> (forall e, preserves f (h e)) -> preserves f (try_catch m h).
Proof.
  intros Hm Hh w. unfold try_catch. specialize (Hm w).
  destruct (m w) as [[a|e] w1]; simpl in *; [done|].
  by rewrite Hh.
Qed.
End Preserves.

Ltac frame :=
  repeat first
    [ apply preserves_ret
    | apply preserves_throw
    | apply preserves_gets
    | apply preserves_modify; intros; first [reflexivity | solve [auto]]
    | apply preserves_bind; [|intros]
    | apply preserves_try_catch; [|intros]
    | progress case_match ].

Section FlagFrame.
Variable E : Env.

Lemma permissionsToCreate_flag r c l :
  preserves initHasRun (permissionsToCreate E r c l).
Proof.
  induction l as [|a l IH]; simpl; [frame|].
  destruct r; [|frame].
  apply preserves_bind; [unfold permission_create; frame|intros].
  apply preserves_bind; [apply IH|intros; frame].
Qed.

Lemma allPermissionsToCreate_flag r l :
  preserves initHasRun (allPermissionsToCreate E r l).
Proof.
  induction l as [|[c a] l IH]; simpl; [frame|].
  apply preserves_bind; [apply permissionsToCreate_flag|intros].
  apply preserves_bind; [apply IH|intros; frame].
Qed.

Lemma setPublicPermissions_flag l :
  preserves initHasRun (setPublicPermissions E l).
Proof.
  unfold setPublicPermissions, query_public_role, promise_all.
  apply preserves_bind; [frame|intros].
  apply preserves_bind; [apply allPermissionsToCreate_flag|intros; frame].
Qed.

Lemma createDocument_flag m d : preserves initHasRun (createDocument E m d).
Proof. unfold createDocument, documents_create, console_error. frame. Qed.
End FlagFrame.

(** What the file resolver leaves alone: every observation that does not
    look at the asset store or at the log of uploads. *)
Section ResolverFrame.
Context {X : Type} (f : World -> X).
Variable E : Env.
Hypothesis f_files : forall v w, f (set_files v w) = f w.
Hypothesis f_upload_log : forall v w, f (set_upload_log v w) = f w.

Lemma resolve_file_preserves v : preserves f (resolve_file E v).
Proof.
  unfold resolve_file, findOne_file, getFileData, uploadFile, upload_service.
  frame.
Qed.

Lemma checkFile_loop_preserves l ex up : preserves f (checkFile_loop E l ex up).
Proof.
  revert ex up. induction l as [|v l IH]; intros ex up; simpl; [frame|].
  apply preserves_bind; [apply resolve_file_preserves|].
  intros [x|x]; apply IH.
Qed.

Lemma checkFileExistsBeforeUpload_preserves v :
  preserves f (checkFileExistsBeforeUpload E v).
Proof.
  unfold checkFileExistsBeforeUpload, spread.
  apply preserves_bind; [frame|intros].
  apply preserves_bind; [apply checkFile_loop_preserves|intros; frame].
Qed.

Hypothesis f_heap : forall v w, f (set_heap v w) = f w.

Lemma updateBlocks_loop_preserves l acc : preserves f (updateBlocks_loop E l acc).
Proof.
  revert acc. induction l as [|b l IH]; intros acc; simpl; [frame|].
  unfold get_field, read_object, alloc, write_field.
  repeat first
    [ apply IH
    | apply checkFileExistsBeforeUpload_preserves
    | apply preserves_ret
    | apply preserves_gets
    | apply preserves_modify; intros; solve [auto]
    | apply preserves_bind; [|intros]
    | progress case_match ].
Qed.

Lemma updateBlocks_preserves l : preserves f (updateBlocks E l).
Proof. apply updateBlocks_loop_preserves. Qed.
End ResolverFrame.

Section ImportFlag.
Variable E : Env.

Local Ltac flag_frame :=
  repeat first
    [ apply createDocument_flag
    | apply checkFileExistsBeforeUpload_preserves; intros; reflexivity
    | apply updateBlocks_preserves; intros; reflexivity
    | apply preserves_ret
    | apply preserves_gets
    | apply preserves_modify; intros; reflexivity
    | apply preserves_bind; [|intros] ].

Lemma importCategories_flag : preserves initHasRun (importCategories E).
Proof.
  unfold importCategories. induction (categories E) as [|c l IH]; simpl.
  - flag_frame.
  - apply preserves_bind; [apply createDocument_flag|intros; apply IH].
Qed.

Lemma importAuthors_flag : preserves initHasRun (importAuthors E).
Proof.
  unfold importAuthors. induction (authors E) as [|a l IH]; simpl.
  - flag_frame.
  - apply preserves_bind; [unfold importAuthor; flag_frame|intros; apply IH].
Qed.

Lemma importArticles_flag : preserves initHasRun (importArticles E).
Proof.
  unfold importArticles. induction (articles E) as [|a l IH]; simpl.
  - flag_frame.
  - apply preserves_bind; [|intros; apply IH].
    unfold importArticle, date_now. flag_frame.
Qed.

Lemma importGlobal_flag : preserves initHasRun (importGlobal E).
Proof. unfold importGlobal, date_now, alloc. flag_frame. Qed.

Lemma importAbout_flag : preserves initHasRun (importAbout E).
Proof. unfold importAbout, date_now. flag_frame. Qed.

Lemma importSeedData_flag : preserves initHasRun (importSeedData E).
Proof.
  unfold importSeedData.
  apply preserves_bind; [apply setPublicPermissions_flag|intros _].
  apply preserves_bind; [apply importCategories_flag|intros _].
  apply preserves_bind; [apply importAuthors_flag|intros _].
  apply preserves_bind; [apply importArticles_flag|intros _].
  apply preserves_bind; [apply importGlobal_flag|intros _].
  apply importAbout_flag.
Qed.
End ImportFlag.

(** ** The run-once guard and the entry point *)

Lemma isFirstRun_reachable E w :
  store_reachable E ->
  isFirstRun E w = (Ok (negb (truthy (initHasRun w))), set_initHasRun (Some true) w).
Proof.
  intros [Hg Hs]. unfold isFirstRun, pluginStore_get, pluginStore_set.
  by rewrite Hg, Hs.
Qed.

Lemma set_initHasRun_id w :
  initHasRun w = Some true -> set_initHasRun (Some true) w = w.
Proof. destruct w; simpl; by intros ->. Qed.

Lemma module_exports_flag E w :
  store_reachable E -> initHasRun (module_exports E w).2 = Some true.
Proof.
  intros HE. unfold module_exports, bind at 1.
  rewrite (isFirstRun_reachable _ _ HE).
  destruct (negb _); [|done].
  assert (preserves initHasRun
    (try_catch
       (console_log "Setting up the template..." ;;;
        importSeedData E ;;; console_log "Ready to go")
       (fun error =>
          console_log "Could not import seed data" ;;;
          console_error (LogError error)))) as Hp.
  { unfold console_log, console_error.
    repeat first
      [ apply importSeedData_flag
      | apply preserves_modify; intros; reflexivity
      | apply preserves_bind; [|intros]
      | apply preserves_try_catch; [|intros] ]. }
  by rewrite Hp.
Qed.

Lemma module_exports_skip E w :
  store_reachable E -> initHasRun w = Some true ->
  module_exports E w = (Ok tt, w).
Proof.
  intros HE Hw. unfold module_exports, bind.
  rewrite (isFirstRun_reachable _ _ HE), Hw. simpl.
  by rewrite set_initHasRun_id.
Qed.

(** With the flag set, a start-up imports nothing, whatever the store does:
    the guard answers false, or throws and the entry point with it. *)
Lemma module_exports_skip_any E w :
  initHasRun w = Some true -> (module_exports E w).2 = w.
Proof.
  intros Hw. unfold module_exports, bind, isFirstRun, pluginStore_get, pluginStore_set.
  destruct (store_get_fault E); [done|]. unfold bind, gets. rewrite Hw.
  destruct (store_set_fault E); [done|]. simpl. by apply set_initHasRun_id.
Qed.

Lemma run_invocations_skip Es w :
  initHasRun w = Some true -> run_invocations Es w = w.
Proof.
  unfold run_invocations. induction Es as [|E Es IH]; intros Hw; simpl; [done|].
  rewrite module_exports_skip_any by done. by apply IH.
Qed.

(** C1. With the plugin store reachable, [isFirstRun] answers whether the
    flag was unset or false and leaves it true; so on a first start-up (flag
    unset or false) it answers true.  Once a start-up has called it, the
    flag is true and stays true over the start-ups that follow, and on each
    of them the entry point leaves the world as it is, so nothing is
    imported; with the store reachable [isFirstRun] answers false there and
    the entry point returns normally. *)
Theorem C1_run_once (E E' : Env) (Es : list Env) (w : World) :
  store_reachable E ->
  isFirstRun E w = (Ok (negb (truthy (initHasRun w))), set_initHasRun (Some true) w)
  /\ (initHasRun w = None \/ initHasRun w = Some false ->
      isFirstRun E w = (Ok true, set_initHasRun (Some true) w))
  /\ let w1 := run_invocations Es (module_exports E w).2 in
     initHasRun w1 = Some true
     /\ (module_exports E' w1).2 = w1
     /\ (store_reachable E' ->
         isFirstRun E' w1 = (Ok false, w1) /\ module_exports E' w1 = (Ok tt, w1)).
Proof.
  intros HE.
  pose proof (module_exports_flag E w HE) as Hflag.
  split; [by apply isFirstRun_reachable|].
  split.
  { intros [H|H]; rewrite isFirstRun_reachable by done; by rewrite H. }
  simpl. rewrite run_invocations_skip by done.
  split; [done|]. split; [by apply module_exports_skip_any|].
  intros HE'. split.
  - rewrite isFirstRun_reachable by done. rewrite Hflag. simpl.
    by rewrite set_initHasRun_id.
  - by apply module_exports_skip.
Qed.

Lemma C1_run_once_witness :
  store_reachable quiet_env /\
  (isFirstRun quiet_env empty_world
     = (Ok (negb (truthy (initHasRun empty_world))),
        set_initHasRun (Some true) empty_world)
   /\ (initHasRun empty_world = None \/ initHasRun empty_world = Some false ->
       isFirstRun quiet_env empty_world
         = (Ok true, set_initHasRun (Some true) empty_world))
   /\ let w1 := run_invocations [quiet_env; store_down_env]
                  (module_exports quiet_env empty_world).2 in
      initHasRun w1 = Some true
      /\ (module_exports quiet_env w1).2 = w1
      /\ (store_reachable quiet_env ->
          isFirstRun quiet_env w1 = (Ok false, w1)
          /\ module_exports quiet_env w1 = (Ok tt, w1))).
Proof.
  assert (store_reachable quiet_env) as H by (split; reflexivity).
  split; [exact H|].
  exact (C1_run_once quiet_env quiet_env [quiet_env; store_down_env] empty_world H).
Defined.

Lemma module_exports_unfold E w :
  module_exports E w =
  match isFirstRun E w with
  | (Ok true, w1) =>
      try_catch
        (console_log "Setting up the template..." ;;;
         importSeedData E ;;; console_log "Ready to go")
        (fun error =>
           console_log "Could not import seed data" ;;;
           console_error (LogError error)) w1
  | (Ok false, w1) => (Ok tt, w1)
  | (Throw e, w1) => (Throw e, w1)
  end.
Proof.
  unfold module_exports. unfold bind at 1.
  by destruct (isFirstRun E w) as [[[]|e] w1].
Qed.

(** C9 (amended). The entry point never raises on account of the import:
    whatever [importSeedData] throws is caught and logged, and the entry
    point returns normally.  The run-once guard is called outside the
    [try]: what [isFirstRun] throws is thrown by the entry point. *)
Theorem C9_import_errors_suppressed (E : Env) (w : World) :
  match isFirstRun E w with
  | (Throw e, w1) => module_exports E w = (Throw e, w1)
  | (Ok false, w1) => module_exports E w = (Ok tt, w1)
  | (Ok true, w1) =>
      let w2 := set_console (console w1 ++ [LogMsg "Setting up the template..."]) w1 in
      match importSeedData E w2 with
      | (Ok _, w3) =>
          module_exports E w = (Ok tt, set_console (console w3 ++ [LogMsg "Ready to go"]) w3)
      | (Throw e, w3) =>
          module_exports E w =
            (Ok tt, set_console (console w3 ++
                      [LogMsg "Could not import seed data"; LogError e]) w3)
      end
  end.
Proof.
  rewrite module_exports_unfold.
  destruct (isFirstRun E w) as [[[]|e] w1]; try done.
  unfold try_catch, bind, console_log, console_error, modify. simpl.
  destruct (importSeedData E _) as [[[]|e] w3]; simpl; [done|].
  by rewrite <- app_assoc.
Qed.

(** C9, as stated, fails: a store that cannot be read makes the run-once
    guard throw, and the entry point throws with it. *)
Lemma C9_counterexample :
  isFirstRun store_down_env empty_world = (Throw store_down, empty_world)
  /\ module_exports store_down_env empty_world = (Throw store_down, empty_world)
  /\ ~ (exists w', module_exports store_down_env empty_world = (Ok tt, w')).
Proof.
  split; [reflexivity|]. split; [reflexivity|].
  intros [w' H]. discriminate H.
Qed.

(** ** The file resolver *)

Arguments resolve_file : simpl never.

Section Resolver.
Variable E : Env.

Lemma resolve_file_found s w r :
  lookup_file (strip_ext s) (files w) = Some r ->
  resolve_file E (VStr s) w = (Ok (inl (VFile r)), w).
Proof.
  intros H. unfold resolve_file, findOne_file, bind, gets, ret. simpl.
  unfold lookup_file in H. by rewrite H.
Qed.

Lemma resolve_file_missing s w :
  lookup_file (strip_ext s) (files w) = None ->
  resolve_file E (VStr s) w =
  match statSync_size E (path_join_uploads E s) with
  | Throw e => (Throw e, w)
  | Ok size =>
      let fd := file_data_of E s size in
      let w1 := set_upload_log (upload_log w ++ [(fd, first_segment s)]) w in
      match upload_fault E fd (first_segment s) with
      | Some e => (Throw e, w1)
      | None =>
          let r := uploaded_record E (files w) s size in
          (Ok (inr (VFile r)), set_files (files w ++ [r]) w1)
      end
  end.
Proof.
  intros H. unfold resolve_file, findOne_file, bind at 1 2, gets, ret at 1.
  unfold lookup_file in H. rewrite H.
  unfold getFileData, bind at 1.
  destruct (statSync_size E _) as [size|e]; [|done].
  unfold ret at 1, uploadFile, upload_service, bind, modify. simpl.
  by destruct (upload_fault E _ _).
Qed.

Lemma checkFile_loop_resolve_all l ex up w :
  checkFile_loop E l ex up w =
  match resolve_all E l w with
  | (Ok rs, w') => (Ok (ex ++ found_of rs, up ++ uploaded_of rs), w')
  | (Throw e, w') => (Throw e, w')
  end.
Proof.
  revert ex up w. induction l as [|v l IH]; intros ex up w; simpl.
  - unfold ret. by rewrite !app_nil_r.
  - unfold bind at 1 2. destruct (resolve_file E v w) as [[[x|x]|e] w1]; [| |done].
    + rewrite IH. unfold bind.
      destruct (resolve_all E l w1) as [[rs|e] w2]; [|done].
      unfold ret. simpl. by rewrite <- app_assoc.
    + rewrite IH. unfold bind.
      destruct (resolve_all E l w1) as [[rs|e] w2]; [|done].
      unfold ret. simpl. by rewrite <- app_assoc.
Qed.

Lemma checkFileExistsBeforeUpload_list l w :
  checkFileExistsBeforeUpload E (VList l) w =
  match resolve_all E l w with
  | (Ok rs, w') =>
      let allFiles := found_of rs ++ uploaded_of rs in
      (Ok (if (length allFiles =? 1)%nat
           then default VUndef (allFiles !! 0%nat)
           else VList allFiles), w')
  | (Throw e, w') => (Throw e, w')
  end.
Proof.
  unfold checkFileExistsBeforeUpload, spread. unfold bind at 1, ret at 1.
  unfold bind. rewrite checkFile_loop_resolve_all.
  by destruct (resolve_all E l w) as [[rs|e] w'].
Qed.



(** Every answer of a turn is an asset record: the first record of the
    stripped name, or the record just stored for the uploaded file. *)
Lemma resolve_file_answers s w r w' :
  resolve_file E (VStr s) w = (Ok r, w') -> answers s r.
Proof.
  destruct (lookup_file (strip_ext s) (files w)) as [rec|] eqn:Hf.
  - rewrite (resolve_file_found _ _ _ Hf). intros [= <- _]. simpl.
    unfold lookup_file in Hf. apply find_some in Hf as [_ Hn].
    by apply bool_decide_eq_true in Hn.
  - rewrite (resolve_file_missing _ _ Hf).
    destruct (statSync_size E _) as [size|e]; [|done]. simpl.
    destruct (upload_fault E _ _); [done|]. by intros [= <- _].
Qed.
End Resolver.

Lemma lookup_file_app_Some k l l' r :
  lookup_file k l = Some r -> lookup_file k (l ++ l') = Some r.
Proof.
  unfold lookup_file. induction l as [|x l IH]; simpl; [done|].
  destruct (bool_decide _); [done|apply IH].
Qed.

Lemma lookup_file_app_None k l l' :
  lookup_file k (l ++ l') = None -> lookup_file k l = None.
Proof.
  unfold lookup_file. induction l as [|x l IH]; simpl; [done|].
  destruct (bool_decide _); [done|apply IH].
Qed.

Lemma lookup_file_snoc_None k l r :
  lookup_file k l = None -> file_name r <> k -> lookup_file k (l ++ [r]) = None.
Proof.
  unfold lookup_file. intros Hl Hr. induction l as [|x l IH]; simpl in *.
  - by rewrite bool_decide_eq_false_2.
  - destruct (bool_decide _); [done|by apply IH].
Qed.

Lemma lookup_file_elem_of k l r :
  r ∈ l -> file_name r = k -> exists r0, lookup_file k l = Some r0.
Proof.
  unfold lookup_file. induction 1 as [r l|r x l _ IH]; intros Hk; simpl.
  - rewrite bool_decide_eq_true_2 by done. eauto.
  - destruct (bool_decide _); eauto.
Qed.

Lemma lookup_file_Some k l r :
  lookup_file k l = Some r -> r ∈ l /\ file_name r = k.
Proof.
  unfold lookup_file. intros H. apply find_some in H as [Hin Hk].
  split; [by apply list_elem_of_In|by apply bool_decide_eq_true in Hk].
Qed.

Section ResolverTurns.
Variable E : Env.

(** One turn: the store and the log of uploads only grow, and an upload
    is made only for a file whose stripped name the store does not hold. *)
Lemma resolve_file_turn s w :
  exists new added,
    upload_log (resolve_file E (VStr s) w).2 = upload_log w ++ new
    /\ files (resolve_file E (VStr s) w).2 = files w ++ added
    /\ Forall (fun c => originalFilename c.1 = s
                        /\ lookup_file (strip_ext s) (files w) = None) new.
Proof.
  destruct (lookup_file (strip_ext s) (files w)) as [rec|] eqn:Hf.
  - rewrite (resolve_file_found _ _ _ _ Hf). simpl.
    exists [], []. by rewrite !app_nil_r.
  - rewrite (resolve_file_missing _ _ _ Hf).
    destruct (statSync_size E _) as [size|e]; simpl.
    + destruct (upload_fault E _ _); simpl.
      * eexists [_], []. rewrite app_nil_r. repeat split. by constructor.
      * eexists [_], [_]. repeat split. by constructor.
    + exists [], []. by rewrite !app_nil_r.
Qed.

Lemma resolve_all_cons v l w :
  resolve_all E (v :: l) w =
  match resolve_file E v w with
  | (Ok r, w1) =>
      match resolve_all E l w1 with
      | (Ok rs, w2) => (Ok (r :: rs), w2)
      | (Throw e, w2) => (Throw e, w2)
      end
  | (Throw e, w1) => (Throw e, w1)
  end.
Proof.
  simpl. unfold bind.
  destruct (resolve_file E v w) as [[r|e] w1]; [|done].
  by destruct (resolve_all E l w1) as [[rs|e] w2].
Qed.

Lemma resolve_all_uploads (names : list jsstring) w :
  exists new added,
    upload_log (resolve_all E (VStr <$> names) w).2 = upload_log w ++ new
    /\ files (resolve_all E (VStr <$> names) w).2 = files w ++ added
    /\ Forall (fun c => originalFilename c.1 ∈ names
                /\ lookup_file (strip_ext (originalFilename c.1)) (files w) = None)
              new.
Proof.
  revert w. induction names as [|s names IH]; intros w.
  - exists [], []. by rewrite !app_nil_r.
  - rewrite fmap_cons, resolve_all_cons.
    destruct (resolve_file_turn s w) as (new1 & added1 & Hu1 & Hf1 & Hall1).
    simpl in *.
    assert (Forall (fun c => originalFilename c.1 ∈ s :: names
              /\ lookup_file (strip_ext (originalFilename c.1)) (files w) = None)
            new1) as Hall1'.
    { eapply Forall_impl; [exact Hall1|]. intros c [-> Hc]. split; [left|done]. }
    destruct (resolve_file E (VStr s) w) as [[r|e] w1]; simpl in *.
    + destruct (IH w1) as (new2 & added2 & Hu2 & Hf2 & Hall2).
      destruct (resolve_all E (VStr <$> names) w1) as [[rs|e] w2]; simpl in *.
      all: exists (new1 ++ new2), (added1 ++ added2).
      all: rewrite Hu2, Hf2, Hu1, Hf1, <- !app_assoc; repeat split.
      all: apply Forall_app; split; [done|].
      all: eapply Forall_impl; [exact Hall2|]; intros c [Hin Hc].
      all: split; [by right|]; rewrite Hf1 in Hc.
      all: by eapply lookup_file_app_None.
    + exists new1, added1. done.
Qed.

(** A file name whose stripped name the store already holds is answered
    with that record, at its own position. *)
Lemma resolve_all_found (names : list jsstring) w rs w' i f r0 :
  resolve_all E (VStr <$> names) w = (Ok rs, w') ->
  names !! i = Some f ->
  lookup_file (strip_ext f) (files w) = Some r0 ->
  rs !! i = Some (inl (VFile r0)).
Proof.
  revert w rs i. induction names as [|s names IH]; intros w rs i; [done|].
  rewrite fmap_cons, resolve_all_cons.
  destruct (resolve_file_turn s w) as (new1 & added1 & _ & Hf1 & _).
  destruct (resolve_file E (VStr s) w) as [[r|e] w1] eqn:Hr; simpl in *; [|done].
  destruct (resolve_all E (VStr <$> names) w1) as [[rs1|e] w2] eqn:Hrs; [|done].
  intros [= <- <-] Hi Hl. destruct i as [|i]; simpl in *.
  - injection Hi as ->. rewrite (resolve_file_found _ _ _ _ Hl) in Hr.
    by injection Hr as <- _.
  - eapply IH; [exact Hrs|exact Hi|]. rewrite Hf1.
    by apply lookup_file_app_Some.
Qed.

End ResolverTurns.

Lemma elem_of_found_of rs v : inl v ∈ rs -> v ∈ found_of rs.
Proof.
  intros H. unfold found_of. apply list_elem_of_omap. by exists (inl v).
Qed.

(** C2. A file name whose stripped name is the name of a record of the
    asset store is never handed to the upload service, and the value the
    resolver returns holds the record the store answers for that name. *)
Theorem C2_existing_file_reused (E : Env) (w : World) (names : list jsstring)
    (f : jsstring) (r : FileRecord) :
  f ∈ names -> r ∈ files w -> file_name r = strip_ext f ->
  exists new r0,
    upload_log (checkFileExistsBeforeUpload E (VList (VStr <$> names)) w).2
      = upload_log w ++ new
    /\ Forall (fun c => originalFilename c.1 <> f) new
    /\ lookup_file (strip_ext f) (files w) = Some r0
    /\ forall v,
         (checkFileExistsBeforeUpload E (VList (VStr <$> names)) w).1 = Ok v ->
         v = VFile r0 \/ exists l, v = VList l /\ VFile r0 ∈ l.
Proof.
  intros Hf Hr Hname.
  destruct (lookup_file_elem_of _ _ _ Hr Hname) as [r0 Hr0].
  destruct (resolve_all_uploads E names w) as (new & added & Hup & _ & Hall).
  exists new, r0. rewrite checkFileExistsBeforeUpload_list.
  destruct (resolve_all E (VStr <$> names) w) as [[rs|e] w'] eqn:Hrs; simpl in *.
  - split; [done|]. split.
    { eapply Forall_impl; [exact Hall|]. intros c [_ Hc] Heq. rewrite Heq in Hc. congruence. }
    split; [done|]. intros v [= <-].
    apply list_elem_of_lookup in Hf as [i Hi].
    pose proof (resolve_all_found E names w rs w' i f r0 Hrs Hi Hr0) as Hrsi.
    assert (VFile r0 ∈ found_of rs ++ uploaded_of rs) as Hin.
    { apply elem_of_app. left. apply elem_of_found_of.
      apply list_elem_of_lookup. eauto. }
    destruct (found_of rs ++ uploaded_of rs) as [|x [|y l]] eqn:Hall'; simpl.
    + by apply elem_of_nil in Hin.
    + left. by apply list_elem_of_singleton in Hin as ->.
    + right. eauto.
  - split; [done|]. split; [|done].
    eapply Forall_impl; [exact Hall|]. intros c [_ Hc] Heq. rewrite Heq in Hc. congruence.
Qed.

Lemma C2_existing_file_reused_witness :
  exists new r0,
    upload_log (checkFileExistsBeforeUpload quiet_env
                  (VList (VStr <$> [js "old.jpg"; js "new.jpg"])) world_with_old).2
      = upload_log world_with_old ++ new
    /\ Forall (fun c => originalFilename c.1 <> js "old.jpg") new
    /\ lookup_file (strip_ext (js "old.jpg")) (files world_with_old) = Some r0
    /\ forall v,
         (checkFileExistsBeforeUpload quiet_env
            (VList (VStr <$> [js "old.jpg"; js "new.jpg"])) world_with_old).1 = Ok v ->
         v = VFile r0 \/ exists l, v = VList l /\ VFile r0 ∈ l.
Proof.
  apply (C2_existing_file_reused quiet_env world_with_old
           [js "old.jpg"; js "new.jpg"] (js "old.jpg") old_record).
  - apply list_elem_of_here.
  - apply list_elem_of_here.
  - reflexivity.
Defined.

(** C4. Called with exactly one file name, the resolver returns a single
    asset record (the record found under the stripped name, or the record
    stored for the upload), never a sequence; it throws only when the name
    is not in the store and the file cannot be read or uploaded. *)
Theorem C4_single_file_scalar (E : Env) (w : World) (s : jsstring) :
  match checkFileExistsBeforeUpload E (VList [VStr s]) w with
  | (Ok v, _) =>
      exists r, v = VFile r
        /\ (file_name r = strip_ext s \/ file_name r = first_segment s)
  | (Throw e, _) =>
      lookup_file (strip_ext s) (files w) = None /\ uploadable E s = false
  end.
Proof.
  rewrite checkFileExistsBeforeUpload_list, resolve_all_cons. simpl.
  destruct (lookup_file (strip_ext s) (files w)) as [r|] eqn:Hl.
  - rewrite (resolve_file_found _ _ _ _ Hl). simpl.
    exists r. split; [done|]. left. by apply lookup_file_Some in Hl as [_ ?].
  - rewrite (resolve_file_missing _ _ _ Hl). unfold uploadable.
    destruct (statSync_size E _) as [size|e]; simpl; [|done].
    destruct (upload_fault E _ _); simpl; [done|].
    eexists. split; [done|]. by right.
Qed.

Lemma answers_found_uploaded xs ys :
  found_of ((inl <$> xs) ++ (inr <$> ys)) ++ uploaded_of ((inl <$> xs) ++ (inr <$> ys))
  = untag <$> ((inl <$> xs) ++ (inr <$> ys)).
Proof.
  unfold found_of, uploaded_of. rewrite !omap_app, fmap_app.
  assert (forall l : list value,
    omap (fun r : value + value =>
            match r with inl v => Some v | inr _ => None end) (inl <$> l) = l) as Hfx
    by (intros l; induction l; simpl; [done|by f_equal]).
  assert (forall l : list value,
    omap (fun r : value + value =>
            match r with inl _ => None | inr v => Some v end) (inl <$> l) = []) as Hux
    by (intros l; induction l; simpl; auto).
  assert (forall l : list value,
    omap (fun r : value + value =>
            match r with inl v => Some v | inr _ => None end) (inr <$> l) = []) as Hfy
    by (intros l; induction l; simpl; auto).
  assert (forall l : list value,
    omap (fun r : value + value =>
            match r with inl _ => None | inr v => Some v end) (inr <$> l) = l) as Huy
    by (intros l; induction l; simpl; [done|by f_equal]).
  rewrite Hfx, Hux, Hfy, Huy, app_nil_r. simpl.
  f_equal.
  - induction xs as [|x xs IH]; simpl; [done|]. f_equal. exact IH.
  - induction ys as [|y ys IH]; simpl; [done|]. f_equal. exact IH.
Qed.




Section FreshFiles.
Variable E : Env.

Lemma fresh_keys_cons f names :
  fresh_keys (f :: names) = true ->
  Forall (fun g => strip_ext g <> first_segment f) names /\ fresh_keys names = true.
Proof.
  simpl. intros [Hf Hr]%andb_prop. split; [|done].
  apply Forall_forall. intros g Hg%list_elem_of_In.
  rewrite forallb_forall in Hf. specialize (Hf g Hg).
  apply negb_true_iff, bool_decide_eq_false in Hf. done.
Qed.

(** File names the store does not know, none looked up under the name an
    earlier one is stored under, all readable and accepted: every turn
    uploads. *)
Lemma resolve_all_fresh (names : list jsstring) w :
  Forall (fun f => lookup_file (strip_ext f) (files w) = None) names ->
  fresh_keys names = true ->
  forallb (uploadable E) names = true ->
  exists recs new w',
    resolve_all E (VStr <$> names) w = (Ok (inr <$> (VFile <$> recs)), w')
    /\ Forall2 (fun f r => file_name r = first_segment f
                           /\ originalFilename (file_data r) = f) names recs
    /\ upload_log w' = upload_log w ++ new
    /\ (fun c => originalFilename c.1) <$> new = names.
Proof.
  revert w. induction names as [|s names IH]; intros w Hnone Hfresh Hup.
  - exists [], [], w. simpl. rewrite app_nil_r. repeat split. constructor.
  - apply Forall_cons in Hnone as [Hs Hnone].
    apply fresh_keys_cons in Hfresh as [Hkeys Hfresh].
    simpl in Hup. apply andb_prop in Hup as [Hups Hup].
    rewrite fmap_cons, resolve_all_cons, (resolve_file_missing _ _ _ Hs).
    unfold uploadable in Hups.
    destruct (statSync_size E _) as [size|e]; [|done]. cbv beta zeta.
    destruct (upload_fault E _ _) eqn:Hfault; [done|].
    set (r := uploaded_record E (files w) s size).
    set (w1 := set_files _ _).
    destruct (IH w1) as (recs & new & w' & Hrun & Hrecs & Hlog & Hnew); [|done..|].
    { simpl. apply Forall_forall. intros g Hg.
      apply lookup_file_snoc_None.
      - by eapply Forall_forall in Hnone.
      - eapply Forall_forall in Hkeys; [|exact Hg]. simpl. congruence. }
    rewrite Hrun.
    exists (r :: recs), ((file_data_of E s size, first_segment s) :: new), w'.
    split; [done|]. split; [by constructor|].
    split; [|by simpl; f_equal].
    rewrite Hlog. simpl. by rewrite <- app_assoc.
Qed.

Lemma found_uploaded_fresh (recs : list FileRecord) :
  found_of (inr <$> (VFile <$> recs)) ++ uploaded_of (inr <$> (VFile <$> recs))
  = VFile <$> recs.
Proof.
  pose proof (answers_found_uploaded [] (VFile <$> recs)) as H. simpl in H.
  rewrite H. clear H. induction (VFile <$> recs) as [|x l IH]; simpl; [done|].
  f_equal. exact IH.
Qed.
End FreshFiles.

(** C3 (amended). For N file names, none of whose stripped names is in the
    asset store or is the name an earlier one of them is uploaded under, all
    of them readable and accepted by the upload service: the resolver makes
    exactly N uploads, one per file name in input order, and returns their N
    records: as a sequence of length N, or as the record itself when N = 1. *)
Theorem C3_fresh_files_uploaded (E : Env) (w : World) (names : list jsstring) :
  Forall (fun f => lookup_file (strip_ext f) (files w) = None) names ->
  fresh_keys names = true ->
  forallb (uploadable E) names = true ->
  exists recs new w',
    checkFileExistsBeforeUpload E (VList (VStr <$> names)) w
      = (Ok (one_or_all recs), w')
    /\ length recs = length names
    /\ Forall2 (fun f r => file_name r = first_segment f
                           /\ originalFilename (file_data r) = f) names recs
    /\ upload_log w' = upload_log w ++ new
    /\ length new = length names
    /\ (fun c => originalFilename c.1) <$> new = names.
Proof.
  intros Hnone Hfresh Hup.
  destruct (resolve_all_fresh E names w Hnone Hfresh Hup)
    as (recs & new & w' & Hrun & Hrecs & Hlog & Hnew).
  exists recs, new, w'. rewrite checkFileExistsBeforeUpload_list, Hrun. simpl.
  rewrite found_uploaded_fresh.
  split.
  { f_equal. f_equal. rewrite length_fmap.
    destruct recs as [|r [|r' recs]]; done. }
  split; [symmetry; by eapply Forall2_length|].
  split; [done|]. split; [done|]. split; [|done].
  by rewrite <- Hnew, length_fmap.
Qed.

Lemma C3_fresh_files_uploaded_witness :
  exists recs new w',
    checkFileExistsBeforeUpload quiet_env
      (VList (VStr <$> [js "cover.jpg"; js "avatar.png"; js "a.b.c"])) empty_world
      = (Ok (one_or_all recs), w')
    /\ length recs = length [js "cover.jpg"; js "avatar.png"; js "a.b.c"]
    /\ Forall2 (fun f r => file_name r = first_segment f
                           /\ originalFilename (file_data r) = f)
               [js "cover.jpg"; js "avatar.png"; js "a.b.c"] recs
    /\ upload_log w' = upload_log empty_world ++ new
    /\ length new = length [js "cover.jpg"; js "avatar.png"; js "a.b.c"]
    /\ (fun c => originalFilename c.1) <$> new
       = [js "cover.jpg"; js "avatar.png"; js "a.b.c"].
Proof.
  apply (C3_fresh_files_uploaded quiet_env empty_world
           [js "cover.jpg"; js "avatar.png"; js "a.b.c"]).
  - repeat constructor.
  - reflexivity.
  - reflexivity.
Defined.

(** C3, as stated, fails twice over.  Two distinct file names that the
    store does not know but that share the prefix before the first dot give
    one upload, not two; and for a single file name the result is a record,
    not a sequence of length one. *)
Lemma C3_counterexample :
  (js "photo.small.jpg" <> js "photo.large.jpg"
   /\ Forall (fun f => lookup_file (strip_ext f) (files empty_world) = None)
        [js "photo.small.jpg"; js "photo.large.jpg"]
   /\ exists l w',
        checkFileExistsBeforeUpload quiet_env
          (VList (VStr <$> [js "photo.small.jpg"; js "photo.large.jpg"])) empty_world
        = (Ok (VList l), w')
        /\ length l = 2 /\ length (upload_log w') = 1)
  /\ (exists r w',
        checkFileExistsBeforeUpload quiet_env (VList (VStr <$> [js "cover.jpg"]))
          empty_world = (Ok (VFile r), w')
        /\ length (upload_log w') = 1).
Proof.
  split.
  - split; [discriminate|]. split; [repeat constructor|].
    eexists _, _. split; [vm_compute; reflexivity|]. split; reflexivity.
  - eexists _, _. split; [vm_compute; reflexivity|]. reflexivity.
Qed.

(** Two file names without line terminators that share the prefix before
    the first dot: once the first has been resolved, the second is answered
    from the store, without an upload. *)
Lemma shared_prefix_reused (E : Env) (w w1 : World) (f g : jsstring) r :
  no_line_terminator f = true -> no_line_terminator g = true ->
  before_first_dot f = before_first_dot g ->
  resolve_file E (VStr f) w = (Ok r, w1) ->
  exists rec, resolve_file E (VStr g) w1 = (Ok (inl (VFile rec)), w1)
              /\ file_name rec = before_first_dot g.
Proof.
  intros Hf Hg Hfg Hrun.
  assert (strip_ext g = strip_ext f) as Hkey
    by (rewrite !strip_ext_before_first_dot by done; done).
  assert (exists rec, lookup_file (strip_ext g) (files w1) = Some rec) as [rec Hrec].
  { rewrite Hkey.
    destruct (lookup_file (strip_ext f) (files w)) as [rec|] eqn:Hl.
    - rewrite (resolve_file_found _ _ _ _ Hl) in Hrun. injection Hrun as _ <-. eauto.
    - rewrite (resolve_file_missing _ _ _ Hl) in Hrun.
      destruct (statSync_size E _) as [size|e]; [|done]. simpl in Hrun.
      destruct (upload_fault E _ _); [done|]. injection Hrun as _ <-. simpl.
      eapply lookup_file_elem_of.
      + apply elem_of_app. right. apply list_elem_of_here.
      + simpl. by apply symmetry, strip_ext_first_segment. }
  exists rec. split; [by apply resolve_file_found|].
  apply lookup_file_Some in Hrec as [_ ->].
  by apply strip_ext_before_first_dot.
Qed.

(** C10 at a file name with a line feed after its first dot, "a.b", LF,
    "c": the lookup key is the whole name, while the upload is stored under
    "a"; the store never answers the lookup, and resolving the same name
    again uploads it again. *)
Lemma C10_line_terminator_name :
  strip_ext two_line_name = two_line_name
  /\ first_segment two_line_name = js "a"
  /\ before_first_dot two_line_name = js "a"
  /\ exists r1 w1 r2 w2,
       checkFileExistsBeforeUpload quiet_env (VList [VStr two_line_name]) empty_world
         = (Ok (VFile r1), w1)
       /\ checkFileExistsBeforeUpload quiet_env (VList [VStr two_line_name]) w1
          = (Ok (VFile r2), w2)
       /\ file_name r1 = js "a" /\ file_name r2 = js "a"
       /\ lookup_file (strip_ext two_line_name) (files w2) = None
       /\ length (upload_log w1) = 1 /\ length (upload_log w2) = 2.
Proof.
  split; [reflexivity|]. split; [reflexivity|]. split; [reflexivity|].
  eexists _, _, _, _.
  split; [vm_compute; reflexivity|]. split; [vm_compute; reflexivity|].
  repeat split.
Qed.

(** ** The block updater *)

Section Blocks.
Variable E : Env.

Lemma checkFileExistsBeforeUpload_heap v w :
  heap (checkFileExistsBeforeUpload E v w).2 = heap w.
Proof. by apply (checkFileExistsBeforeUpload_preserves heap). Qed.

Lemma updateBlocks_loop_cons b rest acc w :
  updateBlocks_loop E (b :: rest) acc w =
  match update_request (default ∅ (heap w !! b)) with
  | Some (k, arg) =>
      match checkFileExistsBeforeUpload E arg w with
      | (Ok v, w1) =>
          updateBlocks_loop E rest (acc ++ [length (heap w1)])
            (set_heap (heap w1 ++ [<[k:=v]> (default ∅ (heap w1 !! b))]) w1)
      | (Throw e, w1) => (Throw e, w1)
      end
  | None => updateBlocks_loop E rest (acc ++ [b]) w
  end.
Proof.
  assert (forall (h : heap_t) (o : obj) k v,
    alter (insert k v) (length h) (h ++ [o]) = h ++ [<[k:=v]> o]) as Halter.
  { intros h o k v. rewrite alter_app_r_alt by lia. by rewrite Nat.sub_diag. }
  assert (forall {A B} (m : M A) (k : A -> M B) w0,
    bind m k w0 = match m w0 with
                  | (Ok a, w') => k a w'
                  | (Throw e, w') => (Throw e, w')
                  end) as Hbind by done.
  assert (forall l k w0,
    get_field l k w0 = (Ok (obj_get (default ∅ (heap w0 !! l)) k), w0))
    as Hget by done.
  assert (forall l w0, read_object l w0 = (Ok (default ∅ (heap w0 !! l)), w0))
    as Hread by done.
  assert (forall o w0, alloc o w0 = (Ok (length (heap w0)), set_heap (heap w0 ++ [o]) w0))
    as Halloc by done.
  assert (forall l k v w0,
    write_field l k v w0 = (Ok tt, set_heap (alter (insert k v) l (heap w0)) w0))
    as Hwrite by done.
  simpl. rewrite Hbind, Hget.
  unfold update_request, is_media, is_slider.
  destruct (is_string _ (js "shared.media")).
  - rewrite Hbind, Hget, Hbind.
    destruct (checkFileExistsBeforeUpload E _ w) as [[v|e] w1]; [|done].
    rewrite Hbind, Hread, Hbind, Halloc, Hbind, Hwrite. simpl.
    by rewrite Halter.
  - destruct (is_string _ (js "shared.slider")); [|done].
    rewrite Hbind, Hget, Hbind.
    destruct (checkFileExistsBeforeUpload E _ w) as [[v|e] w1]; [|done].
    rewrite Hbind, Hread, Hbind, Halloc, Hbind, Hwrite. simpl.
    by rewrite Halter.
Qed.

(** The loop allocates copies and leaves every object of the heap as it
    was; a block that is an object of the heap is copied when it is a media
    or slider block, and passed on by reference otherwise. *)
Lemma updateBlocks_loop_frame blocks acc w :
  match updateBlocks_loop E blocks acc w with
  | (Ok out, w') =>
      exists news,
        out = acc ++ news
        /\ length news = length blocks
        /\ heap w `prefix_of` heap w'
        /\ forall i b o, blocks !! i = Some b -> heap w !! b = Some o ->
             match update_request o with
             | Some (k, _) =>
                 exists c v, news !! i = Some c /\ length (heap w) <= c
                             /\ heap w' !! c = Some (<[k:=v]> o)
             | None => news !! i = Some b
             end
  | (Throw e, w') => heap w `prefix_of` heap w'
  end.
Proof.
  revert acc w. induction blocks as [|b rest IH]; intros acc w.
  { simpl. exists []. rewrite app_nil_r. repeat split; try done. }
  rewrite updateBlocks_loop_cons.
  destruct (update_request (default ∅ (heap w !! b))) as [[k arg]|] eqn:Hreq.
  - pose proof (checkFileExistsBeforeUpload_heap arg w) as Hheap.
    destruct (checkFileExistsBeforeUpload E arg w) as [[v|e] w1]; simpl in Hheap;
      [|by rewrite Hheap].
    rewrite Hheap.
    set (copy := <[k:=v]> (default ∅ (heap w !! b))).
    set (w2 := set_heap (heap w ++ [copy]) w1).
    specialize (IH (acc ++ [length (heap w)]) w2).
    assert (heap w2 = heap w ++ [copy]) as Hw2 by done.
    destruct (updateBlocks_loop E rest _ w2) as [[out|e] w'].
    + destruct IH as (news & -> & Hlen & Hpre & Hblocks).
      exists (length (heap w) :: news). rewrite <- app_assoc.
      split; [done|]. split; [simpl; by rewrite Hlen|].
      assert (heap w `prefix_of` heap w') as Hpre'.
      { etrans; [|exact Hpre]. rewrite Hw2. by apply prefix_app_r. }
      split; [done|].
      intros [|i] b' o Hb Ho; simpl in Hb.
      * injection Hb as ->. rewrite Ho in Hreq. simpl in Hreq.
        rewrite Hreq. exists (length (heap w)), v.
        split; [done|]. split; [done|].
        eapply prefix_lookup_Some; [|exact Hpre].
        rewrite Hw2. unfold copy. rewrite Ho. by apply list_lookup_middle.
      * assert (heap w2 !! b' = Some o) as Ho2
          by (rewrite Hw2; by apply lookup_app_l_Some).
        specialize (Hblocks i b' o Hb Ho2).
        destruct (update_request o) as [[k' arg']|]; [|done].
        destruct Hblocks as (c & v' & Hc & Hle & Hcopy).
        exists c, v'. split; [done|]. split; [|done].
        rewrite Hw2, length_app in Hle. lia.
    + etrans; [|exact IH]. rewrite Hw2. by apply prefix_app_r.
  - specialize (IH (acc ++ [b]) w).
    destruct (updateBlocks_loop E rest _ w) as [[out|e] w']; [|done].
    destruct IH as (news & -> & Hlen & Hpre & Hblocks).
    exists (b :: news). rewrite <- app_assoc.
    split; [done|]. split; [simpl; by rewrite Hlen|]. split; [done|].
    intros [|i] b' o Hb Ho; simpl in Hb.
    * injection Hb as ->. rewrite Ho in Hreq. simpl in Hreq. by rewrite Hreq.
    * by apply Hblocks.
Qed.
End Blocks.

Example updateBlocks_sample :
  (updateBlocks quiet_env [0; 1; 2; 3]%nat world_with_blocks).1
  = Ok [0; 4; 5; 6]%nat.
Proof. vm_compute. reflexivity. Qed.

(** C6. [updateBlocks] returns a sequence as long as its input and leaves
    every object of the heap, so every input block, as it was.  At its own
    position, a block that is neither a media nor a slider block is passed on
    by reference; a media or slider block is replaced by a newly allocated
    object that has the block's properties, but for [file] (or [files]).
    If the call throws, the heap has still only grown. *)
Theorem C6_updateBlocks_copies (E : Env) (w : World) (blocks : list loc) :
  match updateBlocks E blocks w with
  | (Ok out, w') =>
      length out = length blocks
      /\ (forall l o, heap w !! l = Some o -> heap w' !! l = Some o)
      /\ forall i b o, blocks !! i = Some b -> heap w !! b = Some o ->
           match update_request o with
           | Some (k, _) =>
               exists c v, out !! i = Some c /\ length (heap w) <= c
                           /\ heap w' !! c = Some (<[k:=v]> o)
           | None => out !! i = Some b
           end
  | (Throw e, w') => forall l o, heap w !! l = Some o -> heap w' !! l = Some o
  end.
Proof.
  unfold updateBlocks.
  pose proof (updateBlocks_loop_frame E blocks [] w) as H.
  destruct (updateBlocks_loop E blocks [] w) as [[out|e] w'].
  - destruct H as (news & -> & Hlen & Hpre & Hblocks). simpl.
    split; [done|]. split; [|done].
    intros l o Hl. by eapply prefix_lookup_Some.
  - intros l o Hl. by eapply prefix_lookup_Some.
Qed.

Section ResolvedBlocks.
Variable E : Env.

Lemma resolve_file_record v w r w' :
  resolve_file E v w = (Ok r, w') -> exists rec, untag r = VFile rec.
Proof.
  destruct v as [| | | |s| | |]; try done.
  intros H. apply resolve_file_answers in H.
  destruct r as [[]|[]]; simpl in *; try done; eauto.
Qed.

Lemma resolve_all_records l w rs w' :
  resolve_all E l w = (Ok rs, w') ->
  exists recs, found_of rs ++ uploaded_of rs = VFile <$> recs.
Proof.
  revert w rs. induction l as [|v l IH]; intros w rs.
  - intros [= <- _]. by exists [].
  - rewrite resolve_all_cons.
    destruct (resolve_file E v w) as [[r|e] w1] eqn:Hr; [|done].
    destruct (resolve_all E l w1) as [[rs1|e] w2] eqn:Hrs; [|done].
    intros [= <- <-].
    destruct (IH _ _ Hrs) as [recs Hrecs].
    destruct (resolve_file_record _ _ _ _ Hr) as [rec Hrec].
    destruct r as [x|x]; simpl in *; subst x.
    + exists (rec :: recs). simpl. by f_equal.
    + assert (exists recs1 recs2, found_of rs1 = VFile <$> recs1
                /\ uploaded_of rs1 = VFile <$> recs2 /\ recs = recs1 ++ recs2)
        as (recs1 & recs2 & -> & -> & ->).
      { symmetry in Hrecs. apply fmap_app_inv in Hrecs. naive_solver. }
      exists (recs1 ++ rec :: recs2). by rewrite fmap_app.
Qed.

Lemma checkFileExistsBeforeUpload_list_resolved l w res w' :
  checkFileExistsBeforeUpload E (VList l) w = (Ok res, w') -> resolved_files res.
Proof.
  rewrite checkFileExistsBeforeUpload_list.
  destruct (resolve_all E l w) as [[rs|e] w1] eqn:Hrs; [|done].
  destruct (resolve_all_records _ _ _ _ Hrs) as [recs ->]. simpl.
  intros [= <- _]. rewrite length_fmap.
  destruct recs as [|r [|r' recs]]; simpl.
  - right. by exists [].
  - left. eauto.
  - right. by exists (r :: r' :: recs).
Qed.

Lemma checkFileExistsBeforeUpload_resolved v w res w' :
  checkFileExistsBeforeUpload E v w = (Ok res, w') -> resolved_files res.
Proof.
  destruct v as [| | | |s| |l|]; try done.
  - apply (checkFileExistsBeforeUpload_list_resolved (VStr <$> string_iterator s)).
  - apply checkFileExistsBeforeUpload_list_resolved.
Qed.

Lemma checkFileExistsBeforeUpload_single v w res w' :
  checkFileExistsBeforeUpload E (VList [v]) w = (Ok res, w') ->
  exists r, res = VFile r.
Proof.
  rewrite checkFileExistsBeforeUpload_list, resolve_all_cons.
  destruct (resolve_file E v w) as [[r|e] w1] eqn:Hr; [|done].
  destruct (resolve_file_record _ _ _ _ Hr) as [rec Hrec]. simpl.
  destruct r as [x|x]; simpl in *; subst x; intros [= <- _]; eauto.
Qed.

Lemma is_media_insert k v o :
  k <> "__component" -> is_media (<[k:=v]> o) = is_media o.
Proof.
  intros Hk. unfold is_media, obj_get. by rewrite lookup_insert_ne.
Qed.

Lemma is_slider_insert k v o :
  k <> "__component" -> is_slider (<[k:=v]> o) = is_slider o.
Proof.
  intros Hk. unfold is_slider, obj_get. by rewrite lookup_insert_ne.
Qed.

Lemma media_not_slider o : is_media o = true -> is_slider o = false.
Proof.
  unfold is_media, is_slider. destruct (obj_get o "__component"); try done.
  simpl. intros ->%bool_decide_eq_true. done.
Qed.

(** The copy made for a block is a resolved block. *)
Lemma copy_resolved o k arg v w w' :
  update_request o = Some (k, arg) ->
  checkFileExistsBeforeUpload E arg w = (Ok v, w') ->
  resolved_block (<[k:=v]> o).
Proof.
  unfold update_request. intros Hreq Hrun.
  destruct (is_media o) eqn:Hm; [|destruct (is_slider o) eqn:Hs; [|done]].
  - injection Hreq as <- <-.
    apply checkFileExistsBeforeUpload_single in Hrun as [r ->].
    split.
    + intros _. exists r. unfold obj_get. by rewrite lookup_insert_eq.
    + rewrite is_slider_insert by done.
      by rewrite (media_not_slider _ Hm).
  - injection Hreq as <- <-.
    apply checkFileExistsBeforeUpload_resolved in Hrun.
    split.
    + rewrite is_media_insert by done. by rewrite Hm.
    + intros _. unfold obj_get. by rewrite lookup_insert_eq.
Qed.

Lemma updateBlocks_loop_resolved blocks acc w out w' :
  updateBlocks_loop E blocks acc w = (Ok out, w') ->
  (forall c o, c ∈ acc -> heap w !! c = Some o -> resolved_block o) ->
  forall c o, c ∈ out -> heap w' !! c = Some o -> resolved_block o.
Proof.
  revert acc w. induction blocks as [|b rest IH]; intros acc w.
  { intros [= <- <-]. done. }
  rewrite updateBlocks_loop_cons.
  destruct (update_request (default ∅ (heap w !! b))) as [[k arg]|] eqn:Hreq.
  - pose proof (checkFileExistsBeforeUpload_heap E arg w) as Hheap.
    destruct (checkFileExistsBeforeUpload E arg w) as [[v|e] w1] eqn:Hrun;
      [|done].
    simpl in Hheap. rewrite Hheap. intros Hloop Hacc.
    eapply IH; [exact Hloop|]. simpl.
    intros c o [Hc|Hc%list_elem_of_singleton]%elem_of_app
      [[Hlt Ho]|[Heq <-]]%lookup_snoc_Some.
    + exact (Hacc c o Hc Ho).
    + exact (copy_resolved _ _ _ _ _ _ Hreq Hrun).
    + lia.
    + exact (copy_resolved _ _ _ _ _ _ Hreq Hrun).
  - intros Hloop Hacc. eapply IH; [exact Hloop|].
    intros c o [Hc|Hc%list_elem_of_singleton]%elem_of_app Ho.
    + exact (Hacc c o Hc Ho).
    + subst c. rewrite Ho in Hreq. simpl in Hreq.
      unfold update_request in Hreq.
      destruct (is_media o) eqn:Hm; [done|].
      destruct (is_slider o) eqn:Hs; [done|].
      split; [by rewrite Hm|by rewrite Hs].
Qed.
End ResolvedBlocks.

(** ** Document creation *)

Section DcFrame.
Lemma dc_frame_ret {A} (a : A) : dc_frame (ret a).
Proof. by intros w d c. Qed.

Lemma dc_frame_throw {A} e : dc_frame (@throw A e).
Proof. by intros w d c. Qed.

Lemma dc_frame_gets {A} (g : World -> A) :
  (forall w d c, g (set_dc d c w) = g w) -> dc_frame (gets g).
Proof. intros H w d c. unfold gets. simpl. by rewrite H. Qed.

Lemma dc_frame_modify g :
  (forall w d c, g (set_dc d c w) = set_dc d c (g w)) -> dc_frame (modify g).
Proof. intros H w d c. unfold modify. simpl. by rewrite H. Qed.

Lemma dc_frame_bind {A B} (m : M A) (k : A -> M B) :
  dc_frame m -> (forall a, dc_frame (k a)) -> dc_frame (bind m k).
Proof.
  intros Hm Hk w d c. unfold bind. rewrite Hm.
  destruct (m w) as [[a|e] w1]; simpl; [|done]. by rewrite Hk.
Qed.

Lemma set_dc_id w : set_dc (documents w) (console w) w = w.
Proof. by destruct w. Qed.

Lemma dc_frame_documents {A} (m : M A) w :
  dc_frame m ->
  documents (m w).2 = documents w /\ console (m w).2 = console w.
Proof.
  intros Hm. specialize (Hm w (documents w) (console w)).
  rewrite set_dc_id in Hm. rewrite Hm. done.
Qed.
End DcFrame.

Ltac dc_frame :=
  repeat first
    [ apply dc_frame_ret
    | apply dc_frame_throw
    | apply dc_frame_gets; intros; reflexivity
    | apply dc_frame_modify; intros; reflexivity
    | apply dc_frame_bind; [|intros]
    | progress case_match ].

Section DcFrameResolver.
Variable E : Env.

Lemma resolve_file_dc v : dc_frame (resolve_file E v).
Proof.
  unfold resolve_file, findOne_file, getFileData, uploadFile, upload_service.
  dc_frame.
Qed.

Lemma checkFile_loop_dc l ex up : dc_frame (checkFile_loop E l ex up).
Proof.
  revert ex up. induction l as [|v l IH]; intros ex up; simpl; [dc_frame|].
  apply dc_frame_bind; [apply resolve_file_dc|].
  intros [x|x]; apply IH.
Qed.

Lemma checkFileExistsBeforeUpload_dc v : dc_frame (checkFileExistsBeforeUpload E v).
Proof.
  unfold checkFileExistsBeforeUpload, spread.
  apply dc_frame_bind; [dc_frame|intros].
  apply dc_frame_bind; [apply checkFile_loop_dc|intros; dc_frame].
Qed.

Lemma updateBlocks_loop_dc l acc : dc_frame (updateBlocks_loop E l acc).
Proof.
  revert acc. induction l as [|b l IH]; intros acc; simpl; [dc_frame|].
  unfold get_field, read_object, alloc, write_field.
  repeat first
    [ apply IH
    | apply checkFileExistsBeforeUpload_dc
    | apply dc_frame_ret
    | apply dc_frame_gets; intros; reflexivity
    | apply dc_frame_modify; intros; reflexivity
    | apply dc_frame_bind; [|intros]
    | progress case_match ].
Qed.

Lemma article_document_dc a : dc_frame (article_document E a).
Proof.
  unfold article_document, date_now, updateBlocks.
  repeat first
    [ apply updateBlocks_loop_dc
    | apply checkFileExistsBeforeUpload_dc
    | apply dc_frame_ret
    | apply dc_frame_gets; intros; reflexivity
    | apply dc_frame_modify; intros; reflexivity
    | apply dc_frame_bind; [|intros] ].
Qed.

Lemma article_document_never_failing a :
  article_document (never_failing E) a = article_document E a.
Proof. reflexivity. Qed.
End DcFrameResolver.

Lemma createDocument_run E model document w :
  createDocument E model document w =
  match create_fault E model document with
  | None => (Ok tt, set_documents (documents w ++ [(model, document)]) w)
  | Some error =>
      (Ok tt, set_console (console w ++ [LogDocument model document error]) w)
  end.
Proof.
  unfold createDocument, try_catch, documents_create.
  by destruct (create_fault E model document).
Qed.

Lemma importArticle_run E a w :
  importArticle E a w =
  match article_document E a w with
  | (Ok doc, w1) => createDocument E (js "api::article.article") doc w1
  | (Throw e, w1) => (Throw e, w1)
  end.
Proof.
  unfold importArticle, article_document, bind.
  destruct (checkFileExistsBeforeUpload E _ w) as [[cover|e] w1]; [|done].
  destruct (updateBlocks E _ w1) as [[blocks|e] w2]; [|done].
  by destruct (date_now E w2) as [[t|e] w3].
Qed.

Lemma importArticles_loop_cons E a l w :
  importArticles_loop E (a :: l) w =
  match importArticle E a w with
  | (Ok _, w1) => importArticles_loop E l w1
  | (Throw e, w1) => (Throw e, w1)
  end.
Proof. done. Qed.

(** The import of a batch of articles, next to the same import with a
    content store that accepts everything: same outcome, same world but for
    the documents and the console; the documents created are those of the
    other run that the store accepts, and each refusal is logged. *)
Lemma importArticles_loop_compare E l w0 d c :
  exists docs,
    (importArticles_loop E l (set_dc d c w0)).1
      = (importArticles_loop (never_failing E) l w0).1
    /\ documents (importArticles_loop (never_failing E) l w0).2
       = documents w0 ++ docs
    /\ console (importArticles_loop (never_failing E) l w0).2 = console w0
    /\ (importArticles_loop E l (set_dc d c w0)).2
       = set_dc (d ++ List.filter (creatable E) docs)
                (c ++ omap (creation_log E) docs)
                (importArticles_loop (never_failing E) l w0).2.
Proof.
  revert w0 d c. induction l as [|a l IH]; intros w0 d c.
  { exists []. simpl. by rewrite !app_nil_r. }
  rewrite !importArticles_loop_cons, !importArticle_run.
  rewrite article_document_never_failing.
  rewrite (article_document_dc E a w0 d c).
  destruct (dc_frame_documents (article_document E a) w0 (article_document_dc E a))
    as [Hdocs Hcons].
  destruct (article_document E a w0) as [[doc|e] w1]; simpl in *.
  - rewrite !createDocument_run. simpl.
    set (md := (js "api::article.article", doc)).
    set (w1' := set_documents (documents w1 ++ [md]) w1).
    destruct (IH w1' (d ++ List.filter (creatable E) [md])
                     (c ++ omap (creation_log E) [md]))
      as (docs & Hout & Hd & Hc & Hw).
    exists (md :: docs).
    assert (forall d' c', set_dc d' c' w1' = set_dc d' c' w1) as Hset by done.
    rewrite Hset in Hout, Hw.
    assert (match create_fault E (js "api::article.article") doc with
            | Some error =>
                (Ok tt, set_console
                   (c ++ [LogDocument (js "api::article.article") doc error])
                   (set_dc d c w1))
            | None => (Ok tt, set_documents (d ++ [md]) (set_dc d c w1))
            end
            = (Ok tt, set_dc (d ++ List.filter (creatable E) [md])
                             (c ++ omap (creation_log E) [md]) w1)) as Hstep.
    { unfold creation_log, creatable. simpl.
      destruct (create_fault E (js "api::article.article") doc); simpl;
        by rewrite app_nil_r. }
    rewrite Hstep. clear Hstep.
    split; [exact Hout|]. split.
    { rewrite Hd. simpl. rewrite Hdocs. by rewrite <- app_assoc. }
    split; [by rewrite Hc|].
    rewrite Hw.
    assert (omap (creation_log E) (md :: docs)
            = omap (creation_log E) [md] ++ omap (creation_log E) docs) as ->
      by (simpl; by destruct (creation_log E md)).
    assert (List.filter (creatable E) (md :: docs)
            = List.filter (creatable E) [md] ++ List.filter (creatable E) docs) as ->
      by (simpl; by destruct (creatable E md)).
    by rewrite !app_assoc.
  - exists []. simpl. by rewrite !app_nil_r.
Qed.

(** A batch of three articles, the second refused: the import returns
    normally, the first and the third are created, the refusal is logged. *)
Example importArticles_second_refused :
  exists w' d1 d3,
    importArticles refusing_env empty_world = (Ok tt, w')
    /\ documents w' = [(js "api::article.article", d1); (js "api::article.article", d3)]
    /\ obj_get d1 "slug" = VStr (js "first")
    /\ obj_get d3 "slug" = VStr (js "third")
    /\ exists d2, console w' = [LogDocument (js "api::article.article") d2 schema_violation]
                  /\ obj_get d2 "slug" = VStr (js "second").
Proof.
  eexists _, _, _. split; [vm_compute; reflexivity|].
  split; [reflexivity|]. split; [reflexivity|]. split; [reflexivity|].
  eexists. split; reflexivity.
Qed.

(** * Further properties of the script *)

(** ** Public permissions *)

Lemma bind_run {A B} (m : M A) (k : A -> M B) w :
  bind m k w = match m w with
               | (Ok a, w') => k a w'
               | (Throw e, w') => (Throw e, w')
               end.
Proof. done. Qed.

Section Permissions.
Variable E : Env.

Lemma permission_create_run action role w :
  permission_create E action role w =
  match permission_fault E action with
  | Some e => (Ok (Some e), w)
  | None => (Ok None, set_permissions (permissions w ++ [(action, role)]) w)
  end.
Proof. unfold permission_create. by destruct (permission_fault E action). Qed.

Lemma permissionsToCreate_run id controller actions w :
  permissionsToCreate E (Some id) controller actions w =
  (Ok (permission_fault E <$> (permission_action controller <$> actions)),
   set_permissions
     (permissions w ++
      ((fun a => (a, id)) <$>
       List.filter (permission_granted E) (permission_action controller <$> actions)))
     w).
Proof.
  revert w. induction actions as [|a actions IH]; intros w.
  { simpl. unfold ret. rewrite app_nil_r. by destruct w. }
  simpl. rewrite bind_run, permission_create_run. unfold permission_granted.
  destruct (permission_fault E (permission_action controller a)) eqn:Hf.
  - by rewrite bind_run, IH.
  - rewrite bind_run, IH. unfold ret. simpl. by rewrite <- app_assoc.
Qed.

Lemma allPermissionsToCreate_run id l w :
  allPermissionsToCreate E (Some id) l w =
  (Ok (permission_fault E <$> all_actions l),
   set_permissions
     (permissions w ++
      ((fun a => (a, id)) <$> List.filter (permission_granted E) (all_actions l)))
     w).
Proof.
  revert w. induction l as [|[c acts] l IH]; intros w.
  { simpl. unfold ret. rewrite app_nil_r. by destruct w. }
  simpl. rewrite bind_run, permissionsToCreate_run, bind_run, IH. unfold ret.
  unfold all_actions. simpl.
  rewrite fmap_app, List.filter_app, fmap_app. simpl.
  by rewrite <- app_assoc.
Qed.

Lemma promise_all_run promises w :
  promise_all promises w =
  match omap id promises with
  | e :: _ => (Throw e, w)
  | [] => (Ok tt, w)
  end.
Proof. unfold promise_all. by destruct (omap id promises). Qed.

Lemma omap_faults_nil (acts : list jsstring) :
  omap id (permission_fault E <$> acts) = [] ->
  forall a, a ∈ acts -> permission_fault E a = None.
Proof.
  induction acts as [|a acts IH]; simpl; intros H b Hb.
  - by apply elem_of_nil in Hb.
  - destruct (permission_fault E a) eqn:Ha; [done|].
    apply elem_of_cons in Hb as [->|Hb]; [done|by apply IH].
Qed.

Lemma omap_faults_cons (acts : list jsstring) e es :
  omap id (permission_fault E <$> acts) = e :: es ->
  exists a, a ∈ acts /\ permission_fault E a = Some e.
Proof.
  induction acts as [|a acts IH]; simpl; [done|].
  destruct (permission_fault E a) eqn:Ha; simpl.
  - intros [= -> _]. exists a. split; [left|done].
  - intros H. destruct (IH H) as (b & Hb & Hfb). exists b. split; [by right|done].
Qed.

(** X1. With a public role, for a table whose keys are distinct and not
    made of digits (so that [Object.keys] lists them as written),
    [setPublicPermissions] returns normally exactly when the service accepts
    every creation, and has then recorded one permission per (controller,
    action) pair for that role, in the order of the table.  When it throws,
    it throws the error of a refused creation; nothing but the permission
    records has changed, and every record added is for that role and for an
    action of the table that the service accepts. *)
Theorem setPublicPermissions_with_role (w : World)
    (newPermissions : list (jsstring * list jsstring)) (role : nat) :
  public_role w = Some role ->
  NoDup newPermissions.*1 ->
  Forall (fun ca => digits_only ca.1 = false) newPermissions ->
  ((forall a, a ∈ all_actions newPermissions -> permission_fault E a = None)
   <-> exists w', setPublicPermissions E newPermissions w = (Ok tt, w'))
  /\ match setPublicPermissions E newPermissions w with
     | (Ok _, w') =>
         w' = set_permissions
                (permissions w ++
                 ((fun a => (a, role)) <$> all_actions newPermissions)) w
     | (Throw e, w') =>
         (exists a, a ∈ all_actions newPermissions /\ permission_fault E a = Some e)
         /\ exists added,
              w' = set_permissions (permissions w ++ added) w
              /\ Forall (fun p => p.2 = role /\ p.1 ∈ all_actions newPermissions
                                  /\ permission_fault E p.1 = None) added
     end.
Proof.
  intros Hrole _ _. unfold setPublicPermissions, query_public_role.
  rewrite !bind_run. unfold gets. rewrite Hrole.
  rewrite !bind_run, allPermissionsToCreate_run, promise_all_run.
  destruct (omap id (permission_fault E <$> all_actions newPermissions))
    as [|e es] eqn:Hf.
  - pose proof (omap_faults_nil _ Hf) as Hnone.
    assert (List.filter (permission_granted E) (all_actions newPermissions)
            = all_actions newPermissions) as ->.
    { apply forallb_filter_id. rewrite forallb_forall. intros a Ha%list_elem_of_In.
      unfold permission_granted. by rewrite (Hnone a Ha). }
    split; [|done]. split; [eauto|done].
  - destruct (omap_faults_cons _ _ _ Hf) as (a & Ha & Hfa).
    split.
    + split; [|by intros [w' ?]].
      intros Hnone. rewrite (Hnone a Ha) in Hfa. done.
    + split; [eauto|]. eexists. split; [done|].
      apply Forall_fmap, Forall_forall. intros b Hb. simpl.
      apply list_elem_of_In, filter_In in Hb as [Hb Hg%Is_true_true_2].
      split; [done|]. split; [by apply list_elem_of_In|].
      unfold permission_granted in Hg. by destruct (permission_fault E b).
Qed.

Lemma permissionsToCreate_no_role controller actions w :
  permissionsToCreate E None controller actions w =
  match actions with
  | [] => (Ok [], w)
  | _ :: _ =>
      (Throw (TypeError "Cannot read properties of null (reading 'id')"), w)
  end.
Proof. by destruct actions. Qed.

Lemma allPermissionsToCreate_no_role l w :
  (all_actions l = [] -> allPermissionsToCreate E None l w = (Ok [], w))
  /\ (all_actions l <> [] ->
      exists msg, allPermissionsToCreate E None l w = (Throw (TypeError msg), w)).
Proof.
  induction l as [|[c acts] l [IH1 IH2]]; [by split|].
  unfold all_actions. simpl. rewrite bind_run, permissionsToCreate_no_role.
  destruct acts as [|a acts]; simpl.
  - rewrite bind_run. split; intros H.
    + by rewrite (IH1 H).
    + destruct (IH2 H) as [msg ->]. eauto.
  - split; [done|eauto].
Qed.

Lemma setPublicPermissions_no_role_throws l w :
  public_role w = None -> all_actions l <> [] ->
  exists msg, setPublicPermissions E l w = (Throw (TypeError msg), w).
Proof.
  intros Hrole Hl. unfold setPublicPermissions, query_public_role.
  rewrite bind_run. unfold gets. rewrite Hrole, bind_run.
  destruct (allPermissionsToCreate_no_role l w) as [_ H].
  destruct (H Hl) as [msg ->]. eauto.
Qed.

(** X2. Without a public role, [setPublicPermissions] creates nothing: it
    throws a TypeError and leaves the world as it was, unless there is no
    action to grant at all, in which case it returns normally. *)
Theorem setPublicPermissions_without_role (w : World)
    (newPermissions : list (jsstring * list jsstring)) :
  public_role w = None ->
  (all_actions newPermissions = [] ->
   setPublicPermissions E newPermissions w = (Ok tt, w))
  /\ (all_actions newPermissions <> [] ->
      exists msg, setPublicPermissions E newPermissions w = (Throw (TypeError msg), w)).
Proof.
  intros Hrole. split; [|by apply setPublicPermissions_no_role_throws].
  intros Hl. unfold setPublicPermissions, query_public_role.
  rewrite bind_run. unfold gets. rewrite Hrole, bind_run.
  destruct (allPermissionsToCreate_no_role newPermissions w) as [H _].
  by rewrite (H Hl).
Qed.
End Permissions.

Lemma setPublicPermissions_with_role_witness :
  (public_role empty_world = Some 2%nat
   /\ NoDup two_controllers.*1
   /\ Forall (fun ca : jsstring * list jsstring => digits_only ca.1 = false)
             two_controllers)
  /\ ((forall a, a ∈ all_actions two_controllers ->
                 permission_fault denying_env a = None)
      <-> exists w',
            setPublicPermissions denying_env two_controllers empty_world
            = (Ok tt, w'))
  /\ match setPublicPermissions denying_env two_controllers empty_world with
     | (Ok _, w') =>
         w' = set_permissions
                (permissions empty_world ++
                 ((fun a => (a, 2%nat)) <$> all_actions two_controllers))
                empty_world
     | (Throw e, w') =>
         (exists a, a ∈ all_actions two_controllers
                    /\ permission_fault denying_env a = Some e)
         /\ exists added,
              w' = set_permissions (permissions empty_world ++ added) empty_world
              /\ Forall (fun p => p.2 = 2%nat
                                  /\ p.1 ∈ all_actions two_controllers
                                  /\ permission_fault denying_env p.1 = None)
                        added
     end.
Proof.
  assert (NoDup two_controllers.*1) as Hkeys.
  { apply NoDup_cons. split; [|apply NoDup_singleton].
    intros Hin%list_elem_of_singleton. discriminate Hin. }
  assert (Forall (fun ca : jsstring * list jsstring => digits_only ca.1 = false)
                 two_controllers) as Hdigits by (repeat constructor).
  split; [by repeat split|].
  exact (setPublicPermissions_with_role denying_env empty_world two_controllers
           2%nat eq_refl Hkeys Hdigits).
Defined.

Lemma setPublicPermissions_without_role_witness :
  public_role world_without_role = None
  /\ (all_actions [(js "article", find_findOne)] = [] ->
      setPublicPermissions quiet_env [(js "article", find_findOne)] world_without_role
      = (Ok tt, world_without_role))
  /\ (all_actions [(js "article", find_findOne)] <> [] ->
      exists msg,
        setPublicPermissions quiet_env [(js "article", find_findOne)] world_without_role
        = (Throw (TypeError msg), world_without_role)).
Proof.
  split; [reflexivity|].
  exact (setPublicPermissions_without_role quiet_env world_without_role
           [(js "article", find_findOne)] eq_refl).
Defined.

(** ** The two ways of stripping an extension *)

Lemma first_segment_strip_ext s :
  no_line_terminator (after_first_dot s) = true -> first_segment s = strip_ext s.
Proof.
  rewrite first_segment_before_first_dot. unfold no_line_terminator.
  induction s as [|c t IH]; simpl; [done|].
  destruct (c =? DOT)%N; simpl.
  - by intros ->.
  - intros H. by rewrite IH.
Qed.

(** X3. The lookup key [fileName.replace(/\..*$/, '')] and the upload name
    [fileName.split('.').shift()] are the same string exactly when no line
    terminator follows the first dot of the file name. *)
Theorem strip_ext_first_segment_iff (s : jsstring) :
  strip_ext s = first_segment s <-> no_line_terminator (after_first_dot s) = true.
Proof.
  rewrite first_segment_before_first_dot. unfold no_line_terminator.
  induction s as [|c t IH]; simpl; [done|].
  destruct (c =? DOT)%N; simpl.
  - destruct (forallb _ t); [done|]. split; discriminate.
  - rewrite <- IH. split; [by intros [= ->]|by intros ->].
Qed.

(** The stored name is a prefix of the lookup key, which is a prefix of the
    file name. *)
Lemma strip_ext_prefix s :
  first_segment s `prefix_of` strip_ext s /\ strip_ext s `prefix_of` s.
Proof.
  rewrite first_segment_before_first_dot.
  induction s as [|c t [IH1 IH2]]; simpl; [done|].
  destruct (c =? DOT)%N eqn:Hc; simpl.
  - split; [apply prefix_nil|].
    destruct (forallb _ t); [apply prefix_nil|]. by apply prefix_cons.
  - split; by apply prefix_cons.
Qed.

(** ** File data *)

(** [split('.')] cuts the string at its dots: joined again with dots, the
    segments give the string back, and no segment holds a dot. *)
Lemma split_dot_snoc (s : jsstring) :
  exists segs seg,
    split_dot s = segs ++ [seg]
    /\ (DOT ∉ seg)
    /\ s = concat ((fun x : jsstring => x ++ [DOT]) <$> segs) ++ seg.
Proof.
  induction s as [|c t (segs & seg & Hsplit & Hdot & Heq)].
  { exists [], []. split; [done|]. split; [apply not_elem_of_nil|done]. }
  simpl. destruct (N.eqb_spec c DOT) as [->|Hc].
  - exists ([] :: segs), seg. rewrite Hsplit. split; [done|]. split; [done|].
    simpl. by rewrite Heq at 1.
  - rewrite Hsplit. destruct segs as [|x xs]; simpl in *.
    + exists [], (c :: seg). split; [done|]. split; [|by rewrite Heq at 1].
      intros [?|?]%elem_of_cons; done.
    + exists ((c :: x) :: xs), seg. split; [done|]. split; [done|].
      simpl. by rewrite Heq at 1.
Qed.

Lemma dotted_segments_end (segs : list jsstring) :
  segs <> [] ->
  exists p, concat ((fun x : jsstring => x ++ [DOT]) <$> segs) = p ++ [DOT].
Proof.
  induction segs as [|x xs IH]; [done|]. intros _.
  assert (concat ((fun x : jsstring => x ++ [DOT]) <$> x :: xs)
          = (x ++ [DOT]) ++ concat ((fun x : jsstring => x ++ [DOT]) <$> xs))
    as -> by done.
  destruct (decide (xs = [])) as [->|Hxs].
  - exists x. simpl. by rewrite app_nil_r.
  - destruct (IH Hxs) as [p Hp]. exists ((x ++ [DOT]) ++ p).
    rewrite Hp. by rewrite !app_assoc.
Qed.

Lemma last_segment_spec (s : jsstring) :
  (DOT ∉ last_segment s)
  /\ exists pre, s = pre ++ last_segment s
       /\ (pre = [] \/ exists p, pre = p ++ [DOT])
       /\ (DOT ∉ s -> pre = []).
Proof.
  destruct (split_dot_snoc s) as (segs & seg & Hsplit & Hdot & Heq).
  unfold last_segment. rewrite Hsplit, last_snoc.
  split; [done|]. eexists. split; [exact Heq|].
  destruct segs as [|x xs]; [by split; [left|]|].
  destruct (dotted_segments_end (x :: xs)) as [p Hp]; [done|].
  split; [right; eauto|].
  intros Hno. exfalso. apply Hno. rewrite Heq, Hp.
  apply elem_of_app. left. apply elem_of_app. right. by left.
Qed.

(** X4. [getFileData] leaves the world as it is.  It throws exactly the
    error of [fs.statSync]; otherwise the data it returns carry the file
    name and the size, the same MIME type twice, the one looked up for the
    extension, and as extension the part of the joined path after its last
    dot: a string without a dot, which is the whole path when the path has
    no dot. *)
Theorem getFileData_spec (E : Env) (fileName : jsstring) (w : World) :
  match getFileData E fileName w with
  | (Ok fd, w') =>
      w' = w
      /\ statSync_size E (path_join_uploads E fileName) = Ok (size fd)
      /\ originalFilename fd = fileName
      /\ filepath fd = path_resolve E (path_join_uploads E fileName)
      /\ type fd = mime_lookup E (ext fd) /\ mimetype fd = type fd
      /\ ((DOT ∉ ext fd)
          /\ exists pre, path_join_uploads E fileName = pre ++ ext fd
               /\ (pre = [] \/ exists p, pre = p ++ [DOT])
               /\ (DOT ∉ path_join_uploads E fileName -> pre = []))
  | (Throw e, w') =>
      w' = w /\ statSync_size E (path_join_uploads E fileName) = Throw e
  end.
Proof.
  unfold getFileData.
  destruct (statSync_size E (path_join_uploads E fileName)) as [sz|e]; [|done].
  simpl. repeat (split; [done|]).
  apply last_segment_spec.
Qed.

Example getFileData_no_dot :
  ext <$> (match getFileData quiet_env (js "README") empty_world with
           | (Ok fd, _) => Some fd
           | _ => None
           end) = Some (js "data/uploads/README").
Proof. reflexivity. Qed.

(** ** What the resolver changes *)

Section ResolverWorld.
Variable E : Env.

Lemma world_appends_nil w :
  w = set_files (files w ++ []) (set_upload_log (upload_log w ++ []) w).
Proof. destruct w. simpl. by rewrite !app_nil_r. Qed.

Lemma resolve_file_world v w :
  exists new added,
    (resolve_file E v w).2
      = set_files (files w ++ added) (set_upload_log (upload_log w ++ new) w)
    /\ match (resolve_file E v w).1 with
       | Ok _ => file_name <$> added = snd <$> new
       | Throw _ => added = [] /\ length new <= 1
       end.
Proof.
  destruct v as [| | | |s| | |];
    try (exists [], []; split; [apply world_appends_nil|split; [done|simpl; lia]]).
  destruct (lookup_file (strip_ext s) (files w)) as [rec|] eqn:Hf.
  - rewrite (resolve_file_found _ _ _ _ Hf). simpl.
    exists [], []. split; [apply world_appends_nil|done].
  - rewrite (resolve_file_missing _ _ _ Hf).
    destruct (statSync_size E _) as [sz|e]; simpl.
    + destruct (upload_fault E _ _); simpl.
      * eexists [_], []. split; [|split; [done|simpl; lia]].
        destruct w. simpl. by rewrite app_nil_r.
      * by eexists [_], [_].
    + exists [], []. split; [apply world_appends_nil|split; [done|simpl; lia]].
Qed.

Lemma resolve_all_world l w :
  exists new added,
    (resolve_all E l w).2
      = set_files (files w ++ added) (set_upload_log (upload_log w ++ new) w)
    /\ (file_name <$> added) `prefix_of` (snd <$> new)
    /\ length new <= S (length added)
    /\ match (resolve_all E l w).1 with
       | Ok _ => file_name <$> added = snd <$> new
       | Throw _ => True
       end.
Proof.
  revert w. induction l as [|v l IH]; intros w.
  { exists [], []. split; [apply world_appends_nil|]. simpl. split; [done|]. split; [lia|done]. }
  rewrite resolve_all_cons.
  destruct (resolve_file_world v w) as (new1 & added1 & Hw1 & Hres1).
  destruct (resolve_file E v w) as [[r|e] w1]; simpl in Hw1, Hres1.
  - destruct (IH w1) as (new2 & added2 & Hw2 & Hpre2 & Hlen2 & Hres2).
    exists (new1 ++ new2), (added1 ++ added2).
    assert (length added1 = length new1) as Hlen1
      by (rewrite <- (length_fmap file_name), Hres1; by rewrite length_fmap).
    destruct (resolve_all E l w1) as [[rs|e] w2]; simpl in Hw2, Hres2 |- *.
    all: rewrite Hw2, Hw1; simpl; rewrite <- !app_assoc.
    all: split; [done|]; rewrite !fmap_app, Hres1.
    all: split; [by apply prefix_app|].
    all: split; [rewrite !length_app; lia|].
    + by rewrite Hres2.
    + done.
  - destruct Hres1 as [-> Hlen]. exists new1, []. simpl.
    split; [done|]. split; [apply prefix_nil|]. split; [lia|done].
Qed.

(** X5. Whatever it is called with and however it ends, the resolver
    changes nothing in the world but the asset store and the log of uploads,
    and those only by appending: the records added are those of the upload
    calls made, in order, and only the last call can have stored nothing
    (when it failed). *)
Theorem checkFileExistsBeforeUpload_appends (v : value) (w : World) :
  exists new added,
    (checkFileExistsBeforeUpload E v w).2
      = set_files (files w ++ added) (set_upload_log (upload_log w ++ new) w)
    /\ (file_name <$> added) `prefix_of` (snd <$> new)
    /\ length new <= S (length added)
    /\ match (checkFileExistsBeforeUpload E v w).1 with
       | Ok _ => file_name <$> added = snd <$> new
       | Throw _ => True
       end.
Proof.
  assert (forall l,
    exists new added,
      (checkFileExistsBeforeUpload E (VList l) w).2
        = set_files (files w ++ added) (set_upload_log (upload_log w ++ new) w)
      /\ (file_name <$> added) `prefix_of` (snd <$> new)
      /\ length new <= S (length added)
      /\ match (checkFileExistsBeforeUpload E (VList l) w).1 with
         | Ok _ => file_name <$> added = snd <$> new
         | Throw _ => True
         end) as Hlist.
  { intros l. rewrite checkFileExistsBeforeUpload_list.
    destruct (resolve_all_world l w) as (new & added & Hw & Hpre & Hlen & Hres).
    exists new, added.
    by destruct (resolve_all E l w) as [[rs|e] w']. }
  destruct v as [| | | |s| |l|];
    try (exists [], []; split; [apply world_appends_nil|];
         simpl; split; [done|]; split; [lia|done]).
  - apply (Hlist (VStr <$> string_iterator s)).
  - apply Hlist.
Qed.
End ResolverWorld.

(** ** Resolving again *)

Section ResolveAgain.
Variable E : Env.

Lemma resolve_all_all_found (names : list jsstring) w :
  Forall (fun f => is_Some (lookup_file (strip_ext f) (files w))) names ->
  exists recs,
    resolve_all E (VStr <$> names) w = (Ok (inl <$> (VFile <$> recs)), w)
    /\ Forall2 (fun f r => lookup_file (strip_ext f) (files w) = Some r) names recs.
Proof.
  induction 1 as [|f names [r Hr] _ (recs & Hrun & Hrecs)].
  { exists []. split; [done|constructor]. }
  exists (r :: recs). rewrite fmap_cons, resolve_all_cons.
  rewrite (resolve_file_found _ _ _ _ Hr), Hrun. split; [done|by constructor].
Qed.

Lemma resolve_all_stored (names : list jsstring) w rs w1 :
  Forall (fun f => no_line_terminator (after_first_dot f) = true) names ->
  resolve_all E (VStr <$> names) w = (Ok rs, w1) ->
  Forall (fun f => is_Some (lookup_file (strip_ext f) (files w1))) names.
Proof.
  intros Hnames. revert w rs. induction Hnames as [|f names Hf _ IH]; intros w rs.
  { constructor. }
  rewrite fmap_cons, resolve_all_cons.
  destruct (resolve_file E (VStr f) w) as [[r|e] w'] eqn:Hturn; [|done].
  destruct (resolve_all E (VStr <$> names) w') as [[rs'|e] w''] eqn:Hrest; [|done].
  intros [= <- <-]. constructor; [|by eapply IH].
  destruct (resolve_all_uploads E names w') as (new & added & _ & Hfiles & _).
  rewrite Hrest in Hfiles. simpl in Hfiles. rewrite Hfiles.
  assert (is_Some (lookup_file (strip_ext f) (files w'))) as [rec Hrec].
  { destruct (lookup_file (strip_ext f) (files w)) as [rec|] eqn:Hl.
    - rewrite (resolve_file_found _ _ _ _ Hl) in Hturn. injection Hturn as _ <-. eauto.
    - rewrite (resolve_file_missing _ _ _ Hl) in Hturn.
      destruct (statSync_size E _) as [sz|e]; [|done]. simpl in Hturn.
      destruct (upload_fault E _ _); [done|]. injection Hturn as _ <-. simpl.
      destruct (lookup_file_elem_of (strip_ext f)
                  (files w ++ [uploaded_record E (files w) f sz])
                  (uploaded_record E (files w) f sz)) as [rec Hrec]; eauto.
      + apply elem_of_app. right. apply list_elem_of_here.
      + simpl. by apply first_segment_strip_ext. }
  exists rec. by apply lookup_file_app_Some.
Qed.

(** X6. Resolving the same file names again uploads nothing: after a call
    that returned, for file names without a line terminator after the first
    dot, a second call with the same names leaves the world as it is and
    returns, in input order, the records stored under the stripped names. *)
Theorem checkFileExistsBeforeUpload_again (w w1 : World) (names : list jsstring)
    (v : value) :
  Forall (fun f => no_line_terminator (after_first_dot f) = true) names ->
  checkFileExistsBeforeUpload E (VList (VStr <$> names)) w = (Ok v, w1) ->
  exists recs,
    checkFileExistsBeforeUpload E (VList (VStr <$> names)) w1
      = (Ok (one_or_all recs), w1)
    /\ Forall2 (fun f r => lookup_file (strip_ext f) (files w1) = Some r) names recs.
Proof.
  intros Hnames. rewrite checkFileExistsBeforeUpload_list.
  destruct (resolve_all E (VStr <$> names) w) as [[rs|e] w'] eqn:Hrun; [|done].
  intros [= _ <-].
  pose proof (resolve_all_stored names w rs w' Hnames Hrun) as Hstored.
  destruct (resolve_all_all_found names w' Hstored) as (recs & Hagain & Hrecs).
  exists recs. split; [|done].
  rewrite checkFileExistsBeforeUpload_list, Hagain. simpl.
  pose proof (answers_found_uploaded (VFile <$> recs) []) as Hall.
  simpl in Hall. rewrite !app_nil_r in Hall. rewrite Hall.
  assert (forall l : list value, untag <$> (inl <$> l) = l) as ->.
  { intros l. induction l as [|x l IHl]; simpl; [done|]. f_equal. exact IHl. }
  f_equal. f_equal. rewrite length_fmap.
  by destruct recs as [|r [|r' recs']].
Qed.

(** X7. In one call, for file names without a line terminator after the
    first dot, the resolver never uploads two files under the same name, and
    never uploads under a name the store already held. *)
Theorem checkFileExistsBeforeUpload_no_double_upload (w : World)
    (names : list jsstring) :
  Forall (fun f => no_line_terminator (after_first_dot f) = true) names ->
  exists new,
    upload_log (checkFileExistsBeforeUpload E (VList (VStr <$> names)) w).2
      = upload_log w ++ new
    /\ NoDup (snd <$> new)
    /\ Forall (fun c => lookup_file c.2 (files w) = None) new.
Proof.
  intros Hnames.
  assert ((checkFileExistsBeforeUpload E (VList (VStr <$> names)) w).2
          = (resolve_all E (VStr <$> names) w).2) as ->.
  { rewrite checkFileExistsBeforeUpload_list.
    by destruct (resolve_all E (VStr <$> names) w) as [[rs|e] w']. }
  revert w. induction Hnames as [|f names Hf _ IH]; intros w.
  { exists []. simpl. rewrite app_nil_r. repeat split; constructor. }
  rewrite fmap_cons, resolve_all_cons.
  assert (forall r w1,
    (let (r0, w2) := resolve_all E (VStr <$> names) w1 in
     match r0 with
     | Ok rs => (Ok (r :: rs), w2)
     | Throw e => (Throw e, w2)
     end).2 = (resolve_all E (VStr <$> names) w1).2) as Hsnd
    by (intros r w1; by destruct (resolve_all E (VStr <$> names) w1) as [[?|?] ?]).
  destruct (lookup_file (strip_ext f) (files w)) as [rec|] eqn:Hl.
  - rewrite (resolve_file_found _ _ _ _ Hl), Hsnd. apply IH.
  - rewrite (resolve_file_missing _ _ _ Hl).
    destruct (statSync_size E _) as [sz|e]; simpl.
    2:{ exists []. rewrite app_nil_r. repeat split; constructor. }
    assert (first_segment f = strip_ext f) as Hkey
      by (by apply first_segment_strip_ext).
    destruct (upload_fault E _ _).
    { eexists [_]. simpl. repeat split.
      - apply NoDup_singleton.
      - constructor; [|constructor]. simpl. by rewrite Hkey. }
    rewrite Hsnd.
    set (r := uploaded_record E (files w) f sz).
    set (w1 := set_files _ _).
    destruct (IH w1) as (new & Hlog & Hnodup & Hnone).
    exists ((file_data_of E f sz, first_segment f) :: new).
    rewrite Hlog. simpl. rewrite <- app_assoc. split; [done|].
    assert (Forall (fun c : FileData * jsstring =>
              c.2 <> first_segment f /\ lookup_file c.2 (files w) = None) new) as Hboth.
    { eapply Forall_impl; [exact Hnone|]. intros c Hc. simpl in Hc. split.
      - intros Heq. rewrite Heq in Hc.
        destruct (lookup_file_elem_of (first_segment f) (files w ++ [r]) r)
          as [r0 Hr0]; [apply elem_of_app; right; apply list_elem_of_here|done|].
        congruence.
      - by eapply lookup_file_app_None. }
    split.
    + constructor; [|done]. intros Hin.
      apply list_elem_of_fmap in Hin as (c & Hc & Hcin).
      rewrite Forall_forall in Hboth. destruct (Hboth c Hcin) as [Hne _]. done.
    + constructor; [simpl; by rewrite Hkey|].
      eapply Forall_impl; [exact Hboth|]. by intros c [_ ?].
Qed.
End ResolveAgain.

Lemma checkFileExistsBeforeUpload_again_witness :
  exists v w1,
    checkFileExistsBeforeUpload quiet_env
      (VList (VStr <$> [js "new.jpg"; js "old.jpg"; js "new.png"])) world_with_old
    = (Ok v, w1)
    /\ exists recs,
         checkFileExistsBeforeUpload quiet_env
           (VList (VStr <$> [js "new.jpg"; js "old.jpg"; js "new.png"])) w1
         = (Ok (one_or_all recs), w1)
         /\ Forall2 (fun f r => lookup_file (strip_ext f) (files w1) = Some r)
              [js "new.jpg"; js "old.jpg"; js "new.png"] recs.
Proof.
  eexists _, _. split; [vm_compute; reflexivity|].
  eapply (checkFileExistsBeforeUpload_again quiet_env world_with_old).
  - repeat constructor.
  - vm_compute. reflexivity.
Defined.

Lemma checkFileExistsBeforeUpload_no_double_upload_witness :
  exists new,
    upload_log (checkFileExistsBeforeUpload quiet_env
      (VList (VStr <$> [js "new.jpg"; js "old.jpg"; js "new.png"])) world_with_old).2
      = upload_log world_with_old ++ new
    /\ NoDup (snd <$> new)
    /\ Forall (fun c => lookup_file c.2 (files world_with_old) = None) new.
Proof.
  apply (checkFileExistsBeforeUpload_no_double_upload quiet_env world_with_old).
  repeat constructor.
Defined.

(** ** The importers *)

Section Importers.
Variable E : Env.

(** X8. [importCategories] always returns normally and touches nothing
    but the documents and the console: the categories the content store
    accepts are created, in the order of the seed data, and each refusal is
    logged. *)
Theorem importCategories_spec (w : World) :
  importCategories E w =
  (Ok tt,
   set_dc
     (documents w ++
      List.filter (creatable E)
        ((fun c => (js "api::category.category", c)) <$> categories E))
     (console w ++
      omap (creation_log E)
        ((fun c => (js "api::category.category", c)) <$> categories E))
     w).
Proof.
  unfold importCategories. revert w.
  induction (categories E) as [|c l IH]; intros w.
  { simpl. unfold ret. rewrite !app_nil_r. by rewrite set_dc_id. }
  simpl. rewrite bind_run, createDocument_run.
  unfold creatable at 1, creation_log at 1. simpl.
  destruct (create_fault E (js "api::category.category") c); rewrite IH; simpl.
  - unfold set_dc. simpl. by rewrite <- app_assoc.
  - unfold set_dc. simpl. by rewrite <- app_assoc.
Qed.

Lemma importAuthors_loop_app pre l w :
  importAuthors_loop E (pre ++ l) w =
  match importAuthors_loop E pre w with
  | (Ok _, w1) => importAuthors_loop E l w1
  | (Throw e, w1) => (Throw e, w1)
  end.
Proof.
  revert w. induction pre as [|a pre IH]; intros w; [done|].
  simpl. rewrite !bind_run.
  destruct (importAuthor E a w) as [[[]|e] w1]; [apply IH|done].
Qed.

(** X9. Unlike a refused creation, an avatar that cannot be resolved
    aborts the import of the authors: when the avatar of an author is
    neither in the asset store nor readable on disk, [importAuthors] throws
    the error of the file system, and neither that author nor any author
    after it is created. *)
Theorem importAuthors_unreadable_avatar (pre post : list Author) (a : Author)
    (s : jsstring) (e : exn) (w w1 : World) :
  authors E = pre ++ a :: post ->
  importAuthors_loop E pre w = (Ok tt, w1) ->
  avatar a = VStr s ->
  lookup_file (strip_ext s) (files w1) = None ->
  statSync_size E (path_join_uploads E s) = Throw e ->
  importAuthors E w = (Throw e, w1).
Proof.
  intros Hauthors Hpre Ha Hl Hstat.
  unfold importAuthors. rewrite Hauthors, importAuthors_loop_app, Hpre.
  simpl. rewrite bind_run. unfold importAuthor. rewrite bind_run, Ha.
  rewrite checkFileExistsBeforeUpload_list, resolve_all_cons.
  by rewrite (resolve_file_missing _ _ _ Hl), Hstat.
Qed.

(** X10. Blocks that are neither media nor slider blocks cost nothing:
    [updateBlocks] returns the very same references and leaves the world as
    it is. *)
Theorem updateBlocks_nothing_to_resolve (w : World) (blocks : list loc) :
  Forall (fun b => update_request (default ∅ (heap w !! b)) = None) blocks ->
  updateBlocks E blocks w = (Ok blocks, w).
Proof.
  unfold updateBlocks. intros H.
  assert (forall acc, updateBlocks_loop E blocks acc w = (Ok (acc ++ blocks), w))
    as Hloop.
  { induction H as [|b blocks Hb _ IH]; intros acc.
    - simpl. unfold ret. by rewrite app_nil_r.
    - rewrite updateBlocks_loop_cons, Hb, IH. by rewrite <- app_assoc. }
  apply (Hloop []).
Qed.
End Importers.

Lemma importAuthors_unreadable_avatar_witness :
  exists w1,
    importAuthors_loop seeded_env
      [mkAuthor (VStr (js "david.jpg")) (<["name" := VStr (js "David")]> ∅)]
      world_with_old = (Ok tt, w1)
    /\ length (documents w1) = 1%nat
    /\ importAuthors seeded_env world_with_old = (Throw no_such_file, w1).
Proof.
  eexists. split; [vm_compute; reflexivity|]. split; [reflexivity|].
  eapply (importAuthors_unreadable_avatar seeded_env
            [mkAuthor (VStr (js "david.jpg")) (<["name" := VStr (js "David")]> ∅)]
            [mkAuthor (VStr (js "old.jpg")) (<["name" := VStr (js "Tom")]> ∅)]
            (mkAuthor (VStr (js "missing.png")) (<["name" := VStr (js "Sarah")]> ∅))
            (js "missing.png") no_such_file world_with_old).
  - reflexivity.
  - vm_compute. reflexivity.
  - reflexivity.
  - reflexivity.
  - reflexivity.
Defined.

Lemma updateBlocks_nothing_to_resolve_witness :
  updateBlocks quiet_env [0; 0; 9]%nat world_with_blocks
  = (Ok [0; 0; 9]%nat, world_with_blocks).
Proof.
  apply (updateBlocks_nothing_to_resolve quiet_env world_with_blocks [0; 0; 9]%nat).
  repeat constructor.
Defined.

(** ** A first run that fails *)

(** X11. The run-once flag is set before the import is tried.  When the
    first start-up finds no public role, nothing is imported (the entry
    point logs the TypeError and returns normally), yet the flag is set:
    a later start-up changes nothing, and the import is never tried
    again. *)
Theorem failed_first_run_not_retried (E E' : Env) (w : World) :
  store_reachable E ->
  truthy (initHasRun w) = false ->
  public_role w = None ->
  exists msg,
    module_exports E w =
      (Ok tt,
       set_console
         (console w ++ [LogMsg "Setting up the template...";
                        LogMsg "Could not import seed data";
                        LogError (TypeError msg)])
         (set_initHasRun (Some true) w))
    /\ (module_exports E' (module_exports E w).2).2 = (module_exports E w).2.
Proof.
  intros HE Hflag Hrole.
  set (w2 := set_console (console (set_initHasRun (Some true) w) ++
                          [LogMsg "Setting up the template..."])
               (set_initHasRun (Some true) w)).
  destruct (setPublicPermissions_no_role_throws E
    [ (js "article", find_findOne); (js "category", find_findOne);
      (js "author", find_findOne); (js "global", find_findOne);
      (js "about", find_findOne) ] w2) as [msg Hperm]; [done|done|].
  exists msg.
  assert (module_exports E w =
      (Ok tt,
       set_console
         (console w ++ [LogMsg "Setting up the template...";
                        LogMsg "Could not import seed data";
                        LogError (TypeError msg)])
         (set_initHasRun (Some true) w))) as Hrun.
  { rewrite module_exports_unfold, (isFirstRun_reachable _ _ HE), Hflag.
    change (negb false) with true. cbv beta iota.
    unfold try_catch. rewrite bind_run. unfold console_log at 1, modify.
    fold w2. rewrite bind_run. unfold importSeedData. rewrite bind_run, Hperm.
    unfold console_log, console_error, bind, modify, w2. simpl.
    by rewrite <- !app_assoc. }
  rewrite Hrun. split; [done|]. simpl.
  by apply module_exports_skip_any.
Qed.

Lemma failed_first_run_not_retried_witness :
  exists msg,
    module_exports quiet_env world_without_role =
      (Ok tt,
       set_console
         (console world_without_role ++
            [LogMsg "Setting up the template...";
             LogMsg "Could not import seed data";
             LogError (TypeError msg)])
         (set_initHasRun (Some true) world_without_role))
    /\ (module_exports seeded_env (module_exports quiet_env world_without_role).2).2
       = (module_exports quiet_env world_without_role).2.
Proof.
  apply (failed_first_run_not_retried quiet_env seeded_env world_without_role).
  - split; reflexivity.
  - reflexivity.
  - reflexivity.
Defined.

(** ** The documents handed to the content store *)

Section Documents.
Variable E : Env.

Lemma date_now_run w :
  date_now E w = (Ok (VNum (clock E (ticks w))), set_ticks (S (ticks w)) w).
Proof. done. Qed.

Lemma alloc_run o w :
  alloc o w = (Ok (length (heap w)), set_heap (heap w ++ [o]) w).
Proof. done. Qed.

Lemma checkFileExistsBeforeUpload_named s w v w1 :
  checkFileExistsBeforeUpload E (VList [VStr s]) w = (Ok v, w1) ->
  exists r, v = VFile r
    /\ (file_name r = strip_ext s \/ file_name r = first_segment s).
Proof.
  rewrite checkFileExistsBeforeUpload_list, resolve_all_cons.
  destruct (resolve_file E (VStr s) w) as [[r|e] w'] eqn:Hr; [|done].
  apply resolve_file_answers in Hr. simpl.
  destruct r as [[]|[]]; simpl in Hr; try done; intros [= <- _]; simpl.
  - eexists. split; [done|]. by left.
  - eexists. split; [done|]. right. by destruct Hr.
Qed.

Lemma strip_ext_jpg (p : jsstring) :
  DOT ∉ p ->
  strip_ext (p ++ js ".jpg") = p /\ first_segment (p ++ js ".jpg") = p.
Proof.
  rewrite first_segment_before_first_dot.
  induction p as [|c p IH]; intros Hp; [done|].
  apply not_elem_of_cons in Hp as [Hc Hp]. destruct (IH Hp) as [IH1 IH2].
  simpl. destruct (N.eqb_spec c DOT) as [->|_]; [done|]. simpl.
  by rewrite IH1, IH2.
Qed.

Lemma article_document_assembled (a : Article) (w w' : World) (doc : obj) :
  article_document E a w = (Ok doc, w') ->
  (exists r, obj_get doc "cover" = VFile r
             /\ ((DOT ∉ slug a) -> file_name r = slug a))
  /\ obj_get doc "status" = VStr (js "published")
  /\ (exists t, obj_get doc "publishedAt" = VNum t)
  /\ (exists out, obj_get doc "blocks" = blocks_value out
        /\ length out = length (article_blocks a)
        /\ forall c o, c ∈ out -> heap w' !! c = Some o -> resolved_block o)
  /\ forall k, k <> "cover" -> k <> "blocks" -> k <> "publishedAt" ->
               k <> "status" -> doc !! k = article_obj a !! k.
Proof.
  unfold article_document. rewrite bind_run.
  destruct (checkFileExistsBeforeUpload E _ w) as [[cover|e] w1] eqn:Hcover; [|done].
  rewrite bind_run.
  destruct (updateBlocks E (article_blocks a) w1) as [[out|e] w2] eqn:Hblocks; [|done].
  rewrite bind_run, date_now_run. unfold ret. intros [= <- <-].
  apply checkFileExistsBeforeUpload_named in Hcover as (r & -> & Hname).
  unfold obj_get. split; [|split; [|split; [|split]]].
  - exists r. split; [by simplify_map_eq|].
    intros Hslug. destruct (strip_ext_jpg _ Hslug) as [H1 H2].
    destruct Hname as [->| ->]; done.
  - by simplify_map_eq.
  - eexists. by simplify_map_eq.
  - exists out. split; [by simplify_map_eq|]. split.
    + unfold updateBlocks in Hblocks.
      pose proof (updateBlocks_loop_frame E (article_blocks a) [] w1) as Hframe.
      rewrite Hblocks in Hframe. by destruct Hframe as (news & -> & Hlen & _).
    + simpl. intros c o Hc Ho.
      eapply (updateBlocks_loop_resolved E _ [] w1 out w2 Hblocks); [|exact Hc|exact Ho].
      intros c' o' Hc'. by apply elem_of_nil in Hc'.
  - intros k H1 H2 H3 H4. by simplify_map_eq.
Qed.

(** X12. When the import of an article returns, its document has been
    created, or its refusal logged.  In that document the [cover] is an asset
    record (stored under the slug itself when the slug holds no dot), the
    [status] is "published", the [blocks] are as many references as the
    article has blocks, each to a resolved block, and every other property
    is the article's own. *)
Theorem importArticle_spec (a : Article) (w w' : World) :
  importArticle E a w = (Ok tt, w') ->
  exists doc,
    match create_fault E (js "api::article.article") doc with
    | None => documents w' = documents w ++ [(js "api::article.article", doc)]
              /\ console w' = console w
    | Some e =>
        documents w' = documents w
        /\ console w' = console w ++ [LogDocument (js "api::article.article") doc e]
    end
    /\ (exists r, obj_get doc "cover" = VFile r
                  /\ ((DOT ∉ slug a) -> file_name r = slug a))
    /\ obj_get doc "status" = VStr (js "published")
    /\ (exists t, obj_get doc "publishedAt" = VNum t)
    /\ (exists out, obj_get doc "blocks" = blocks_value out
          /\ length out = length (article_blocks a)
          /\ forall c o, c ∈ out -> heap w' !! c = Some o -> resolved_block o)
    /\ forall k, k <> "cover" -> k <> "blocks" -> k <> "publishedAt" ->
                 k <> "status" -> doc !! k = article_obj a !! k.
Proof.
  rewrite importArticle_run.
  destruct (dc_frame_documents (article_document E a) w (article_document_dc E a))
    as [Hd Hc].
  destruct (article_document E a w) as [[doc|e] w1] eqn:Hdoc; [|done].
  simpl in Hd, Hc. rewrite createDocument_run. intros Hrun. exists doc.
  pose proof (article_document_assembled a w w1 doc Hdoc) as Hspec.
  assert (heap w' = heap w1) as ->
    by (destruct (create_fault E _ doc); by injection Hrun as <-).
  split; [|exact Hspec].
  destruct (create_fault E _ doc); injection Hrun as <-; simpl;
    by rewrite Hd, Hc.
Qed.

(** X13. When the import of the about page returns, its document has been
    created, or its refusal logged; the [blocks] of the document are as many
    references as the page has blocks, each to a resolved block, and the
    other properties of the page are kept. *)
Theorem importAbout_spec (w w' : World) :
  importAbout E w = (Ok tt, w') ->
  exists doc out,
    match create_fault E (js "api::about.about") doc with
    | None => documents w' = documents w ++ [(js "api::about.about", doc)]
              /\ console w' = console w
    | Some e =>
        documents w' = documents w
        /\ console w' = console w ++ [LogDocument (js "api::about.about") doc e]
    end
    /\ obj_get doc "blocks" = blocks_value out
    /\ length out = length (about_blocks (about E))
    /\ (forall c o, c ∈ out -> heap w' !! c = Some o -> resolved_block o)
    /\ forall k, k <> "blocks" -> k <> "publishedAt" ->
                 doc !! k = about_fields (about E) !! k.
Proof.
  unfold importAbout. rewrite bind_run.
  pose proof (updateBlocks_preserves documents E (fun _ _ => eq_refl)
                (fun _ _ => eq_refl) (fun _ _ => eq_refl)
                (about_blocks (about E)) w) as Hd.
  pose proof (updateBlocks_preserves console E (fun _ _ => eq_refl)
                (fun _ _ => eq_refl) (fun _ _ => eq_refl)
                (about_blocks (about E)) w) as Hc.
  destruct (updateBlocks E (about_blocks (about E)) w) as [[out|e] w1] eqn:Hblocks;
    [|done].
  simpl in Hd, Hc. rewrite bind_run, date_now_run, createDocument_run.
  intros Hrun.
  exists (<["publishedAt" := VNum (clock E (ticks w1))]>
            (<["blocks" := blocks_value out]> (about_fields (about E)))), out.
  assert (heap w' = heap w1) as ->
    by (destruct (create_fault E _ _); by injection Hrun as <-).
  split; [|split; [|split; [|split]]].
  - destruct (create_fault E _ _); injection Hrun as <-; simpl; by rewrite Hd, Hc.
  - unfold obj_get. by simplify_map_eq.
  - unfold updateBlocks in Hblocks.
    pose proof (updateBlocks_loop_frame E (about_blocks (about E)) [] w) as Hframe.
    rewrite Hblocks in Hframe. by destruct Hframe as (news & -> & Hlen & _).
  - intros c o Hc' Ho.
    eapply (updateBlocks_loop_resolved E _ [] w out w1 Hblocks); [|exact Hc'|exact Ho].
    intros c' o' Hin. by apply elem_of_nil in Hin.
  - intros k H1 H2. by simplify_map_eq.
Qed.

(** X14. When [importGlobal] returns, the favicon and the share image have
    been resolved to the asset records named "favicon" and "default-image";
    the share image sits in a newly allocated copy of the default SEO
    settings, to which the document refers; the document is created, or its
    refusal is logged. *)
Theorem importGlobal_spec (w w' : World) :
  importGlobal E w = (Ok tt, w') ->
  exists favicon shareImage,
    file_name favicon = js "favicon"
    /\ file_name shareImage = js "default-image"
    /\ heap w' = heap w ++ [<["shareImage" := VFile shareImage]> (defaultSeo (global E))]
    /\ let doc := <["defaultSeo" := VRef (length (heap w))]>
                    (<["publishedAt" := VNum (clock E (ticks w))]>
                      (<["favicon" := VFile favicon]> (global_fields (global E)))) in
       match create_fault E (js "api::global.global") doc with
       | None =>
           documents w' = documents w ++ [(js "api::global.global", doc)]
           /\ console w' = console w
       | Some e =>
           documents w' = documents w
           /\ console w' = console w ++ [LogDocument (js "api::global.global") doc e]
       end.
Proof.
  unfold importGlobal. rewrite bind_run.
  pose proof (fun {X} (f : World -> X) H1 H2 v w0 =>
    checkFileExistsBeforeUpload_preserves f E H1 H2 v w0) as Hframe.
  pose proof (Hframe _ heap (fun _ _ => eq_refl) (fun _ _ => eq_refl)
                (VList [VStr (js "favicon.png")]) w) as Hh1.
  pose proof (Hframe _ ticks (fun _ _ => eq_refl) (fun _ _ => eq_refl)
                (VList [VStr (js "favicon.png")]) w) as Ht1.
  pose proof (Hframe _ documents (fun _ _ => eq_refl) (fun _ _ => eq_refl)
                (VList [VStr (js "favicon.png")]) w) as Hd1.
  pose proof (Hframe _ console (fun _ _ => eq_refl) (fun _ _ => eq_refl)
                (VList [VStr (js "favicon.png")]) w) as Hc1.
  destruct (checkFileExistsBeforeUpload E (VList [VStr (js "favicon.png")]) w)
    as [[favicon|e] w1] eqn:Hfav; [|done].
  simpl in Hh1, Ht1, Hd1, Hc1. rewrite bind_run.
  pose proof (Hframe _ heap (fun _ _ => eq_refl) (fun _ _ => eq_refl)
                (VList [VStr (js "default-image.png")]) w1) as Hh2.
  pose proof (Hframe _ ticks (fun _ _ => eq_refl) (fun _ _ => eq_refl)
                (VList [VStr (js "default-image.png")]) w1) as Ht2.
  pose proof (Hframe _ documents (fun _ _ => eq_refl) (fun _ _ => eq_refl)
                (VList [VStr (js "default-image.png")]) w1) as Hd2.
  pose proof (Hframe _ console (fun _ _ => eq_refl) (fun _ _ => eq_refl)
                (VList [VStr (js "default-image.png")]) w1) as Hc2.
  destruct (checkFileExistsBeforeUpload E (VList [VStr (js "default-image.png")]) w1)
    as [[shareImage|e] w2] eqn:Hshare; [|done].
  simpl in Hh2, Ht2, Hd2, Hc2.
  apply checkFileExistsBeforeUpload_named in Hfav as (r1 & -> & Hn1).
  apply checkFileExistsBeforeUpload_named in Hshare as (r2 & -> & Hn2).
  rewrite bind_run, date_now_run, bind_run, alloc_run, createDocument_run.
  simpl. rewrite Hh2, Hh1, Ht2, Ht1, Hd2, Hd1, Hc2, Hc1.
  intros Hrun. exists r1, r2.
  split; [by destruct Hn1|]. split; [by destruct Hn2|].
  destruct (create_fault E (js "api::global.global") _); injection Hrun as <-;
    simpl; rewrite ?Hd2, ?Hd1, ?Hc2, ?Hc1; done.
Qed.
End Documents.

Lemma importArticle_spec_witness :
  match importArticle seeded_env
          (mkArticle (js "the-internet") [1; 0]%nat (<["title" := VStr (js "Net")]> ∅))
          world_with_blocks with
  | (Ok _, w') =>
      exists doc,
        match create_fault seeded_env (js "api::article.article") doc with
        | None =>
            documents w' = documents world_with_blocks
                           ++ [(js "api::article.article", doc)]
            /\ console w' = console world_with_blocks
        | Some e =>
            documents w' = documents world_with_blocks
            /\ console w' = console world_with_blocks
                            ++ [LogDocument (js "api::article.article") doc e]
        end
        /\ (exists r, obj_get doc "cover" = VFile r
                      /\ ((DOT ∉ js "the-internet") -> file_name r = js "the-internet"))
        /\ obj_get doc "status" = VStr (js "published")
        /\ (exists t, obj_get doc "publishedAt" = VNum t)
        /\ (exists out, obj_get doc "blocks" = blocks_value out
              /\ length out = 2%nat
              /\ forall c o, c ∈ out -> heap w' !! c = Some o -> resolved_block o)
        /\ forall k, k <> "cover" -> k <> "blocks" -> k <> "publishedAt" ->
             k <> "status" ->
             doc !! k = article_obj (mkArticle (js "the-internet") [1; 0]%nat
                                       (<["title" := VStr (js "Net")]> ∅)) !! k
  | (Throw _, _) => False
  end.
Proof.
  pose proof (importArticle_spec seeded_env
    (mkArticle (js "the-internet") [1; 0]%nat (<["title" := VStr (js "Net")]> ∅))
    world_with_blocks) as H.
  assert (match (importArticle seeded_env
                   (mkArticle (js "the-internet") [1; 0]%nat
                      (<["title" := VStr (js "Net")]> ∅))
                   world_with_blocks).1 with
          | Ok _ => true
          | Throw _ => false
          end = true) as Hok by (vm_compute; reflexivity).
  destruct (importArticle seeded_env _ world_with_blocks) as [[[]|e] w'].
  - exact (H w' eq_refl).
  - discriminate Hok.
Defined.

Lemma importAbout_spec_witness :
  match importAbout seeded_env world_with_blocks with
  | (Ok _, w') =>
      exists doc out,
        match create_fault seeded_env (js "api::about.about") doc with
        | None =>
            documents w' = documents world_with_blocks ++ [(js "api::about.about", doc)]
            /\ console w' = console world_with_blocks
        | Some e =>
            documents w' = documents world_with_blocks
            /\ console w' = console world_with_blocks
                            ++ [LogDocument (js "api::about.about") doc e]
        end
        /\ obj_get doc "blocks" = blocks_value out
        /\ length out = length (about_blocks (about seeded_env))
        /\ (forall c o, c ∈ out -> heap w' !! c = Some o -> resolved_block o)
        /\ forall k, k <> "blocks" -> k <> "publishedAt" ->
                     doc !! k = about_fields (about seeded_env) !! k
  | (Throw _, _) => False
  end.
Proof.
  pose proof (importAbout_spec seeded_env world_with_blocks) as H.
  assert (match (importAbout seeded_env world_with_blocks).1 with
          | Ok _ => true
          | Throw _ => false
          end = true) as Hok by (vm_compute; reflexivity).
  destruct (importAbout seeded_env world_with_blocks) as [[[]|e] w'].
  - exact (H w' eq_refl).
  - discriminate Hok.
Defined.

Lemma importGlobal_spec_witness :
  match importGlobal seeded_env world_with_old with
  | (Ok _, w') =>
      exists favicon shareImage,
        file_name favicon = js "favicon"
        /\ file_name shareImage = js "default-image"
        /\ heap w' = heap world_with_old ++
                     [<["shareImage" := VFile shareImage]> (defaultSeo (global seeded_env))]
        /\ let doc := <["defaultSeo" := VRef (length (heap world_with_old))]>
                        (<["publishedAt" := VNum (clock seeded_env (ticks world_with_old))]>
                          (<["favicon" := VFile favicon]>
                             (global_fields (global seeded_env)))) in
           match create_fault seeded_env (js "api::global.global") doc with
           | None =>
               documents w' = documents world_with_old ++ [(js "api::global.global", doc)]
               /\ console w' = console world_with_old
           | Some e =>
               documents w' = documents world_with_old
               /\ console w' = console world_with_old
                               ++ [LogDocument (js "api::global.global") doc e]
           end
  | (Throw _, _) => False
  end.
Proof.
  pose proof (importGlobal_spec seeded_env world_with_old) as H.
  assert (match (importGlobal seeded_env world_with_old).1 with
          | Ok _ => true
          | Throw _ => false
          end = true) as Hok by (vm_compute; reflexivity).
  destruct (importGlobal seeded_env world_with_old) as [[[]|e] w'].
  - exact (H w' eq_refl).
  - discriminate Hok.
Defined.

(** ** Nothing is ever removed *)

Lemma grows_refl w : grows w w.
Proof. unfold grows. repeat split; done. Qed.

Lemma grows_trans w1 w2 w3 : grows w1 w2 -> grows w2 w3 -> grows w1 w3.
Proof.
  unfold grows.
  intros (H1 & H2 & H3 & H4 & H5 & H6 & H7 & H8)
         (G1 & G2 & G3 & G4 & G5 & G6 & G7 & G8).
  split; [congruence|]. repeat split; first [etrans; eassumption | lia].
Qed.

Ltac grows_step :=
  intros; unfold grows; simpl;
  repeat split; first [done | by apply prefix_app_r | lia].

Section Monotone.
Variable E : Env.

Lemma monotone_ret {A} (a : A) : monotone (ret a).
Proof. intros w. apply grows_refl. Qed.

Lemma monotone_throw {A} e : monotone (@throw A e).
Proof. intros w. apply grows_refl. Qed.

Lemma monotone_gets {A} (g : World -> A) : monotone (gets g).
Proof. intros w. apply grows_refl. Qed.

Lemma monotone_bind {A B} (m : M A) (k : A -> M B) :
  monotone m -> (forall a, monotone (k a)) -> monotone (bind m k).
Proof.
  intros Hm Hk w. rewrite bind_run. specialize (Hm w).
  destruct (m w) as [[a|e] w1]; simpl in *; [|done].
  eapply grows_trans; [exact Hm|apply Hk].
Qed.

Lemma monotone_try_catch {A} (m : M A) (h : exn -> M A) :
  monotone m -> (forall e, monotone (h e)) -> monotone (try_catch m h).
Proof.
  intros Hm Hh w. unfold try_catch. specialize (Hm w).
  destruct (m w) as [[a|e] w1]; simpl in *; [done|].
  eapply grows_trans; [exact Hm|apply Hh].
Qed.

Lemma monotone_console_log msg : monotone (console_log msg).
Proof. intros w. unfold console_log, modify. grows_step. Qed.

Lemma monotone_console_error entry : monotone (console_error entry).
Proof. intros w. unfold console_error, modify. grows_step. Qed.

Lemma monotone_isFirstRun : monotone (isFirstRun E).
Proof.
  intros w. unfold isFirstRun, pluginStore_get, pluginStore_set.
  destruct (store_get_fault E); [apply grows_refl|].
  rewrite bind_run. unfold gets. rewrite bind_run.
  destruct (store_set_fault E); [apply grows_refl|].
  unfold modify, ret. grows_step.
Qed.

Lemma monotone_permissionsToCreate r c l : monotone (permissionsToCreate E r c l).
Proof.
  induction l as [|a l IH]; simpl; [apply monotone_ret|].
  destruct r; [|apply monotone_throw].
  apply monotone_bind; [|intros; apply monotone_bind; [apply IH|intros; apply monotone_ret]].
  intros w. rewrite permission_create_run.
  destruct (permission_fault E _); [apply grows_refl|grows_step].
Qed.

Lemma monotone_setPublicPermissions l : monotone (setPublicPermissions E l).
Proof.
  unfold setPublicPermissions, query_public_role.
  apply monotone_bind; [apply monotone_gets|intros r].
  apply monotone_bind.
  - induction l as [|[c acts] l IH]; simpl; [apply monotone_ret|].
    apply monotone_bind; [apply monotone_permissionsToCreate|intros].
    apply monotone_bind; [apply IH|intros; apply monotone_ret].
  - intros ps w. rewrite promise_all_run.
    destruct (omap id ps); apply grows_refl.
Qed.

Lemma monotone_createDocument m d : monotone (createDocument E m d).
Proof.
  intros w. rewrite createDocument_run.
  destruct (create_fault E m d); grows_step.
Qed.

Lemma monotone_checkFileExistsBeforeUpload v :
  monotone (checkFileExistsBeforeUpload E v).
Proof.
  assert (forall l, monotone (resolve_all E l)) as Hall.
  { intros l w. destruct (resolve_all_world E l w) as (new & added & -> & _).
    grows_step. }
  destruct v as [| | | |s| |l|]; try (intros w; apply grows_refl).
  - intros w.
    change (checkFileExistsBeforeUpload E (VStr s) w)
      with (checkFileExistsBeforeUpload E (VList (VStr <$> string_iterator s)) w).
    rewrite checkFileExistsBeforeUpload_list. specialize (Hall (VStr <$> string_iterator s) w).
    by destruct (resolve_all E _ w) as [[rs|e] w'].
  - intros w. rewrite checkFileExistsBeforeUpload_list. specialize (Hall l w).
    by destruct (resolve_all E l w) as [[rs|e] w'].
Qed.

Lemma monotone_updateBlocks_loop l acc : monotone (updateBlocks_loop E l acc).
Proof.
  revert acc. induction l as [|b l IH]; intros acc w; [apply grows_refl|].
  rewrite updateBlocks_loop_cons.
  destruct (update_request _) as [[k arg]|]; [|apply IH].
  pose proof (monotone_checkFileExistsBeforeUpload arg w) as Hcheck.
  destruct (checkFileExistsBeforeUpload E arg w) as [[v|e] w1]; simpl in Hcheck; [|done].
  eapply grows_trans; [exact Hcheck|].
  eapply grows_trans; [|apply IH]. grows_step.
Qed.

Lemma monotone_date_now : monotone (date_now E).
Proof. intros w. rewrite date_now_run. grows_step. Qed.

Lemma monotone_alloc o : monotone (alloc o).
Proof. intros w. rewrite alloc_run. grows_step. Qed.

Local Ltac monotone_pieces :=
  repeat first
    [ apply monotone_createDocument
    | apply monotone_checkFileExistsBeforeUpload
    | apply monotone_updateBlocks_loop
    | apply monotone_date_now
    | apply monotone_alloc
    | apply monotone_ret
    | apply monotone_bind; [|intros] ].

Lemma monotone_importSeedData : monotone (importSeedData E).
Proof.
  unfold importSeedData.
  apply monotone_bind; [apply monotone_setPublicPermissions|intros _].
  apply monotone_bind; [|intros _].
  { unfold importCategories. induction (categories E) as [|c l IH]; simpl.
    - apply monotone_ret.
    - apply monotone_bind; [apply monotone_createDocument|intros; apply IH]. }
  apply monotone_bind; [|intros _].
  { unfold importAuthors. induction (authors E) as [|a l IH]; simpl.
    - apply monotone_ret.
    - apply monotone_bind; [unfold importAuthor; monotone_pieces|intros; apply IH]. }
  apply monotone_bind; [|intros _].
  { unfold importArticles. induction (articles E) as [|a l IH]; simpl.
    - apply monotone_ret.
    - apply monotone_bind; [|intros; apply IH].
      unfold importArticle, updateBlocks. monotone_pieces. }
  apply monotone_bind; [|intros _].
  { unfold importGlobal. monotone_pieces. }
  unfold importAbout, updateBlocks. monotone_pieces.
Qed.

(** X15. A start-up only ever adds: whatever fails and wherever, every
    permission, asset record, upload call, document, heap object and console
    line that existed before [module.exports] ran is still there, unchanged
    and at its place, afterwards; the public role is untouched. *)
Theorem module_exports_grows (w : World) : grows w (module_exports E w).2.
Proof.
  assert (monotone (module_exports E)) as H; [|apply H].
  unfold module_exports.
  apply monotone_bind; [apply monotone_isFirstRun|intros []]; [|apply monotone_ret].
  apply monotone_try_catch.
  - apply monotone_bind; [apply monotone_console_log|intros _].
    apply monotone_bind; [apply monotone_importSeedData|intros _].
    apply monotone_console_log.
  - intros e. apply monotone_bind; [apply monotone_console_log|intros _].
    apply monotone_console_error.
Qed.
End Monotone.

(** ** Authors and uploads *)

Section AuthorsUploads.
Variable E : Env.

(** X16. An author is imported only with a file name as avatar: when
    [importAuthor] returns, the avatar was a string, it has been resolved to
    an asset record stored under its stripped name, and the author's
    document, with the record in place of the file name and every other
    property as it was, has been created, or its refusal logged. *)
Theorem importAuthor_spec (a : Author) (w w' : World) :
  importAuthor E a w = (Ok tt, w') ->
  exists s r,
    avatar a = VStr s
    /\ (file_name r = strip_ext s \/ file_name r = first_segment s)
    /\ r ∈ files w'
    /\ match create_fault E (author_document a (VFile r)).1
                            (author_document a (VFile r)).2 with
       | None => documents w' = documents w ++ [author_document a (VFile r)]
                 /\ console w' = console w
       | Some e =>
           documents w' = documents w
           /\ console w' = console w ++
                [LogDocument (author_document a (VFile r)).1
                             (author_document a (VFile r)).2 e]
       end.
Proof.
  unfold importAuthor. rewrite bind_run.
  pose proof (checkFileExistsBeforeUpload_preserves documents E
                (fun _ _ => eq_refl) (fun _ _ => eq_refl)
                (VList [avatar a]) w) as Hd.
  pose proof (checkFileExistsBeforeUpload_preserves console E
                (fun _ _ => eq_refl) (fun _ _ => eq_refl)
                (VList [avatar a]) w) as Hc.
  destruct (checkFileExistsBeforeUpload E (VList [avatar a]) w)
    as [[v|e] w1] eqn:Hrun; [|done].
  simpl in Hd, Hc.
  destruct (avatar a) as [| | | |s| | |] eqn:Ha;
    try (rewrite checkFileExistsBeforeUpload_list, resolve_all_cons in Hrun; done).
  assert (exists r, v = VFile r
            /\ (file_name r = strip_ext s \/ file_name r = first_segment s)
            /\ r ∈ files w1) as (r & -> & Hname & Hin).
  { rewrite checkFileExistsBeforeUpload_list, resolve_all_cons in Hrun.
    destruct (lookup_file (strip_ext s) (files w)) as [rec|] eqn:Hl.
    - rewrite (resolve_file_found _ _ _ _ Hl) in Hrun. injection Hrun as <- <-.
      apply lookup_file_Some in Hl as [Hin Hn]. exists rec. eauto.
    - rewrite (resolve_file_missing _ _ _ Hl) in Hrun.
      destruct (statSync_size E _) as [sz|e]; [|done]. simpl in Hrun.
      destruct (upload_fault E _ _); [done|]. injection Hrun as <- <-.
      eexists. split; [done|]. split; [by right|].
      simpl. apply elem_of_app. right. apply list_elem_of_here. }
  rewrite createDocument_run. intros Hdoc. exists s, r.
  split; [done|]. split; [done|]. unfold author_document. simpl.
  destruct (create_fault E (js "api::author.author") _); injection Hdoc as <-;
    simpl; rewrite Hd, Hc; done.
Qed.

(** X17. What an upload carries.  For a file name the store does not know,
    a call that returns has made exactly one call of the upload service,
    with the data [getFileData] computes for the file and, as name, the part
    of the file name before its first dot; the record stored has that name,
    the same caption, and the alternative text "An image uploaded to Strapi
    called " followed by the name. *)
Theorem upload_of_unknown_file (s : jsstring) (w w' : World) (v : value) :
  lookup_file (strip_ext s) (files w) = None ->
  checkFileExistsBeforeUpload E (VList [VStr s]) w = (Ok v, w') ->
  exists r size,
    v = VFile r
    /\ statSync_size E (path_join_uploads E s) = Ok size
    /\ upload_log w' = upload_log w ++ [(file_data_of E s size, before_first_dot s)]
    /\ files w' = files w ++ [r]
    /\ file_name r = before_first_dot s
    /\ file_caption r = before_first_dot s
    /\ file_alternativeText r
       = js "An image uploaded to Strapi called " ++ before_first_dot s
    /\ file_data r = file_data_of E s size.
Proof.
  intros Hl. rewrite checkFileExistsBeforeUpload_list, resolve_all_cons.
  rewrite (resolve_file_missing _ _ _ Hl), <- first_segment_before_first_dot.
  destruct (statSync_size E _) as [size|e]; [|done]. simpl.
  destruct (upload_fault E _ _); [done|]. intros [= <- <-].
  by eexists _, size.
Qed.
End AuthorsUploads.

Lemma importAuthor_spec_witness :
  match importAuthor seeded_env
          (mkAuthor (VStr (js "david.jpg")) (<["name" := VStr (js "David")]> ∅))
          world_with_old with
  | (Ok _, w') =>
      exists s r,
        VStr (js "david.jpg") = VStr s
        /\ (file_name r = strip_ext s \/ file_name r = first_segment s)
        /\ r ∈ files w'
        /\ match create_fault seeded_env
                   (author_document (mkAuthor (VStr (js "david.jpg"))
                      (<["name" := VStr (js "David")]> ∅)) (VFile r)).1
                   (author_document (mkAuthor (VStr (js "david.jpg"))
                      (<["name" := VStr (js "David")]> ∅)) (VFile r)).2 with
           | None =>
               documents w' = documents world_with_old ++
                 [author_document (mkAuthor (VStr (js "david.jpg"))
                    (<["name" := VStr (js "David")]> ∅)) (VFile r)]
               /\ console w' = console world_with_old
           | Some e =>
               documents w' = documents world_with_old
               /\ console w' = console world_with_old ++
                    [LogDocument
                       (author_document (mkAuthor (VStr (js "david.jpg"))
                          (<["name" := VStr (js "David")]> ∅)) (VFile r)).1
                       (author_document (mkAuthor (VStr (js "david.jpg"))
                          (<["name" := VStr (js "David")]> ∅)) (VFile r)).2 e]
           end
  | (Throw _, _) => False
  end.
Proof.
  pose proof (importAuthor_spec seeded_env
    (mkAuthor (VStr (js "david.jpg")) (<["name" := VStr (js "David")]> ∅))
    world_with_old) as H.
  assert (match (importAuthor seeded_env
                   (mkAuthor (VStr (js "david.jpg")) (<["name" := VStr (js "David")]> ∅))
                   world_with_old).1 with
          | Ok _ => true
          | Throw _ => false
          end = true) as Hok by (vm_compute; reflexivity).
  destruct (importAuthor seeded_env _ world_with_old) as [[[]|e] w'].
  - exact (H w' eq_refl).
  - discriminate Hok.
Defined.

Lemma upload_of_unknown_file_witness :
  match checkFileExistsBeforeUpload quiet_env (VList [VStr (js "photo.small.jpg")])
          world_with_old with
  | (Ok v, w') =>
      exists r size,
        v = VFile r
        /\ statSync_size quiet_env (path_join_uploads quiet_env (js "photo.small.jpg"))
           = Ok size
        /\ upload_log w' = upload_log world_with_old ++
             [(file_data_of quiet_env (js "photo.small.jpg") size,
               before_first_dot (js "photo.small.jpg"))]
        /\ files w' = files world_with_old ++ [r]
        /\ file_name r = before_first_dot (js "photo.small.jpg")
        /\ file_caption r = before_first_dot (js "photo.small.jpg")
        /\ file_alternativeText r
           = js "An image uploaded to Strapi called "
             ++ before_first_dot (js "photo.small.jpg")
        /\ file_data r = file_data_of quiet_env (js "photo.small.jpg") size
  | (Throw _, _) => False
  end.
Proof.
  pose proof (upload_of_unknown_file quiet_env (js "photo.small.jpg")
                world_with_old) as H.
  assert (match (checkFileExistsBeforeUpload quiet_env
                   (VList [VStr (js "photo.small.jpg")]) world_with_old).1 with
          | Ok _ => true
          | Throw _ => false
          end = true) as Hok by (vm_compute; reflexivity).
  destruct (checkFileExistsBeforeUpload quiet_env _ world_with_old) as [[v|e] w'].
  - exact (H w' v eq_refl eq_refl).
  - discriminate Hok.
Defined.

(** ** The permissions of a successful import *)

Section ImportFrame.
Context {X : Type} (f : World -> X).
Variable E : Env.
Hypothesis f_files : forall v w, f (set_files v w) = f w.
Hypothesis f_upload_log : forall v w, f (set_upload_log v w) = f w.
Hypothesis f_heap : forall v w, f (set_heap v w) = f w.
Hypothesis f_documents : forall v w, f (set_documents v w) = f w.
Hypothesis f_console : forall v w, f (set_console v w) = f w.
Hypothesis f_ticks : forall v w, f (set_ticks v w) = f w.

Lemma createDocument_preserves m d : preserves f (createDocument E m d).
Proof.
  intros w. rewrite createDocument_run.
  destruct (create_fault E m d); simpl; auto.
Qed.

Local Ltac import_frame :=
  repeat first
    [ apply createDocument_preserves
    | apply checkFileExistsBeforeUpload_preserves; solve [auto]
    | apply updateBlocks_preserves; solve [auto]
    | apply preserves_ret
    | apply preserves_gets
    | apply preserves_modify; intros; solve [auto]
    | apply preserves_bind; [|intros] ].

Lemma importers_preserve :
  preserves f
    (importCategories E ;;; importAuthors E ;;; importArticles E ;;;
     importGlobal E ;;; importAbout E).
Proof.
  apply preserves_bind; [|intros _].
  { unfold importCategories. induction (categories E) as [|c l IH]; simpl.
    - apply preserves_ret.
    - apply preserves_bind; [apply createDocument_preserves|intros; apply IH]. }
  apply preserves_bind; [|intros _].
  { unfold importAuthors. induction (authors E) as [|a l IH]; simpl.
    - apply preserves_ret.
    - apply preserves_bind; [unfold importAuthor; import_frame|intros; apply IH]. }
  apply preserves_bind; [|intros _].
  { unfold importArticles. induction (articles E) as [|a l IH]; simpl.
    - apply preserves_ret.
    - apply preserves_bind; [|intros; apply IH].
      unfold importArticle, date_now. import_frame. }
  apply preserves_bind; [|intros _].
  { unfold importGlobal, date_now, alloc. import_frame. }
  unfold importAbout, date_now. import_frame.
Qed.
End ImportFrame.

(** X18. An import that returns has granted the public role exactly the ten
    permissions of the script's table, find and findOne on article,
    category, author, global and about, in that order, and no other
    permission has been added. *)
Theorem importSeedData_permissions (E : Env) (w w' : World) :
  importSeedData E w = (Ok tt, w') ->
  exists role,
    public_role w = Some role
    /\ permissions w' = permissions w ++
         ((fun a => (a, role)) <$>
          [js "api::article.article.find"; js "api::article.article.findOne";
           js "api::category.category.find"; js "api::category.category.findOne";
           js "api::author.author.find"; js "api::author.author.findOne";
           js "api::global.global.find"; js "api::global.global.findOne";
           js "api::about.about.find"; js "api::about.about.findOne"]).
Proof.
  unfold importSeedData. rewrite bind_run.
  set (table := [ (js "article", find_findOne); (js "category", find_findOne);
                  (js "author", find_findOne); (js "global", find_findOne);
                  (js "about", find_findOne) ]).
  destruct (public_role w) as [role|] eqn:Hrole.
  2:{ destruct (setPublicPermissions_no_role_throws E table w Hrole) as [msg ->];
        done. }
  unfold setPublicPermissions, query_public_role.
  rewrite bind_run. unfold gets. rewrite Hrole.
  rewrite bind_run, allPermissionsToCreate_run, promise_all_run.
  destruct (omap id (permission_fault E <$> all_actions table)) as [|e es] eqn:Hf;
    [|done].
  pose proof (omap_faults_nil E _ Hf) as Hnone.
  assert (List.filter (permission_granted E) (all_actions table) = all_actions table)
    as ->.
  { apply forallb_filter_id. rewrite forallb_forall. intros a Ha%list_elem_of_In.
    unfold permission_granted. by rewrite (Hnone a Ha). }
  set (w1 := set_permissions _ w).
  pose proof (importers_preserve permissions E (fun _ _ => eq_refl)
                (fun _ _ => eq_refl) (fun _ _ => eq_refl) (fun _ _ => eq_refl)
                (fun _ _ => eq_refl) (fun _ _ => eq_refl) w1) as Hp.
  intros Hrun. exists role. split; [done|].
  change (bind (importCategories E) _ w1) with
    ((importCategories E ;;; importAuthors E ;;; importArticles E ;;;
      importGlobal E ;;; importAbout E) w1) in Hrun.
  rewrite Hrun in Hp. simpl in Hp. rewrite Hp. reflexivity.
Qed.

Lemma importSeedData_permissions_witness :
  match importSeedData quiet_env world_with_old with
  | (Ok _, w') =>
      exists role,
        public_role world_with_old = Some role
        /\ permissions w' = permissions world_with_old ++
             ((fun a => (a, role)) <$>
              [js "api::article.article.find"; js "api::article.article.findOne";
               js "api::category.category.find"; js "api::category.category.findOne";
               js "api::author.author.find"; js "api::author.author.findOne";
               js "api::global.global.find"; js "api::global.global.findOne";
               js "api::about.about.find"; js "api::about.about.findOne"])
  | (Throw _, _) => False
  end.
Proof.
  pose proof (importSeedData_permissions
                quiet_env world_with_old) as H.
  assert (match (importSeedData quiet_env world_with_old).1 with
          | Ok _ => true
          | Throw _ => false
          end = true) as Hok by (vm_compute; reflexivity).
  destruct (importSeedData quiet_env world_with_old) as [[[]|e] w'].
  - exact (H w' eq_refl).
  - discriminate Hok.
Defined.

(** * Blocks and articles, position by position *)

(** ** The blocks of a content entry *)

Section Positions.
Variable E : Env.

Lemma resolve_all_strings l w rs w' :
  resolve_all E l w = (Ok rs, w') -> exists names, l = VStr <$> names.
Proof.
  revert w rs w'. induction l as [|v l IH]; intros w rs w'.
  - intros _. by exists [].
  - rewrite resolve_all_cons.
    destruct (resolve_file E v w) as [[r|e] w1] eqn:Hr; [|done].
    destruct (resolve_all E l w1) as [[rs1|e] w2] eqn:Hrs; [|done].
    intros _. destruct (IH _ _ _ Hrs) as [names ->].
    destruct v as [| | | |s| | |]; try done.
    by exists (s :: names).
Qed.

Lemma answered_prefix stored stored' f r :
  stored `prefix_of` stored' -> answered stored f r -> answered stored' f r.
Proof.
  intros [more ->]. destruct r as [[]|[]]; simpl; try done.
  - apply lookup_file_app_Some.
  - intros (? & ? & ?). repeat split; try done. apply elem_of_app. by left.
Qed.

Lemma resolve_file_answered s w r w' :
  resolve_file E (VStr s) w = (Ok r, w') -> answered (files w') s r.
Proof.
  destruct (lookup_file (strip_ext s) (files w)) as [rec|] eqn:Hf.
  - rewrite (resolve_file_found _ _ _ _ Hf). by intros [= <- <-].
  - rewrite (resolve_file_missing _ _ _ Hf).
    destruct (statSync_size E _) as [size|e]; [|done]. cbv beta zeta.
    destruct (upload_fault E _ _); [done|]. intros [= <- <-]. simpl.
    repeat split. apply elem_of_app. right. by apply list_elem_of_singleton.
Qed.

Lemma resolve_all_answered (names : list jsstring) w rs w' :
  resolve_all E (VStr <$> names) w = (Ok rs, w') ->
  Forall2 (answered (files w')) names rs.
Proof.
  revert w rs. induction names as [|s names IH]; intros w rs.
  - intros [= <- _]. constructor.
  - rewrite fmap_cons, resolve_all_cons.
    destruct (resolve_file E (VStr s) w) as [[r|e] w1] eqn:Hr; [|done].
    destruct (resolve_all_uploads E names w1) as (_ & added & _ & Hfiles & _).
    destruct (resolve_all E (VStr <$> names) w1) as [[rs1|e] w2] eqn:Hrs; [|done].
    intros [= <- <-]. simpl in Hfiles. constructor.
    + eapply answered_prefix; [|by eapply resolve_file_answered].
      rewrite Hfiles. by eexists.
    + by eapply IH.
Qed.

(** What the resolver returns: the names it iterated over are answered, in
    order, with records of the store, and the result gathers the records
    found, then the records uploaded. *)
Lemma checkFileExistsBeforeUpload_answered v w res w' :
  checkFileExistsBeforeUpload E v w = (Ok res, w') ->
  exists names rs,
    spreads_to v names /\ Forall2 (answered (files w')) names rs
    /\ res = collapse (found_of rs ++ uploaded_of rs).
Proof.
  assert (forall l, checkFileExistsBeforeUpload E (VList l) w = (Ok res, w') ->
    exists names rs, l = VStr <$> names /\ Forall2 (answered (files w')) names rs
      /\ res = collapse (found_of rs ++ uploaded_of rs)) as Hlist.
  { intros l. rewrite checkFileExistsBeforeUpload_list.
    destruct (resolve_all E l w) as [[rs|e] w1] eqn:Hrs; [|done].
    cbv beta zeta. intros [= <- <-].
    destruct (resolve_all_strings _ _ _ _ Hrs) as [names ->].
    exists names, rs. repeat split. by eapply resolve_all_answered. }
  destruct v as [| | | |s| |l|]; try done.
  - intros Hrun.
    destruct (Hlist (VStr <$> string_iterator s) Hrun) as (names & rs & Hn & Hrs & Hres).
    assert (Inj (=) (=) VStr) as Hinj by (by intros a b [= ->]).
    apply (inj (fmap VStr)) in Hn. subst names.
    exists (string_iterator s), rs. repeat split; try done. right. by exists s.
  - intros Hrun. destruct (Hlist l Hrun) as (names & rs & -> & Hrs & Hres).
    exists names, rs. repeat split; try done. by left.
Qed.

Lemma checkFileExistsBeforeUpload_one_answered x w res w' :
  checkFileExistsBeforeUpload E (VList [x]) w = (Ok res, w') ->
  exists s r, x = VStr s /\ answered (files w') s r /\ res = untag r.
Proof.
  intros Hrun.
  destruct (checkFileExistsBeforeUpload_answered _ _ _ _ Hrun)
    as (names & rs & [Hn|(s & Hs & _)] & Hrs & ->); [|done].
  destruct names as [|s [|s' names]]; try done.
  injection Hn as ->.
  apply Forall2_cons_inv_l in Hrs as (r & rs' & Hr & Hnil & ->).
  apply Forall2_nil_inv_l in Hnil as ->.
  exists s, r. repeat split; [done|]. by destruct r.
Qed.

Lemma update_request_None o :
  update_request o = None -> is_media o = false /\ is_slider o = false.
Proof.
  unfold update_request. by destruct (is_media o), (is_slider o).
Qed.

(** The copy made for the block [o] answers the file names of [o]. *)
Lemma copy_position_resolved o k arg v w w' stored h l :
  update_request o = Some (k, arg) ->
  checkFileExistsBeforeUpload E arg w = (Ok v, w') ->
  files w' `prefix_of` stored ->
  h !! l = Some (<[k:=v]> o) ->
  position_resolved stored h o (Some l).
Proof.
  unfold update_request. intros Hreq Hrun Hpre Hl.
  destruct (is_media o) eqn:Hm; [|destruct (is_slider o) eqn:Hs; [|done]].
  - injection Hreq as <- <-.
    apply checkFileExistsBeforeUpload_one_answered in Hrun as (s & r & Hs & Hr & ->).
    split.
    + intros _. exists l, s, r. repeat split; try done.
      by eapply answered_prefix.
    + by rewrite (media_not_slider _ Hm).
  - injection Hreq as <- <-.
    apply checkFileExistsBeforeUpload_answered in Hrun as (names & rs & Hn & Hrs & ->).
    split; [by rewrite Hm|].
    intros _. exists l, names, rs. repeat split; try done.
    eapply Forall2_impl; [exact Hrs|]. intros f r. by apply answered_prefix.
Qed.

Lemma updateBlocks_loop_positions blocks acc w out w' :
  updateBlocks_loop E blocks acc w = (Ok out, w') ->
  forall i b o, blocks !! i = Some b -> heap w !! b = Some o ->
    position_resolved (files w') (heap w') o (out !! (length acc + i)%nat).
Proof.
  revert acc w. induction blocks as [|b0 rest IH]; intros acc w; [done|].
  rewrite updateBlocks_loop_cons.
  destruct (update_request (default ∅ (heap w !! b0))) as [[k arg]|] eqn:Hreq.
  - pose proof (checkFileExistsBeforeUpload_heap E arg w) as Hheap.
    destruct (checkFileExistsBeforeUpload E arg w) as [[v|e] w1] eqn:Hrun;
      [|done].
    simpl in Hheap. rewrite Hheap. intros Hloop [|i] b o Hb Ho.
    + injection Hb as <-. rewrite Ho in Hreq, Hloop.
      change (default ∅ (Some o)) with o in Hreq, Hloop.
      pose proof (updateBlocks_loop_frame E rest (acc ++ [length (heap w)])
                    (set_heap (heap w ++ [<[k:=v]> o]) w1)) as Hframe.
      pose proof (monotone_updateBlocks_loop E rest (acc ++ [length (heap w)])
                    (set_heap (heap w ++ [<[k:=v]> o]) w1)) as Hgrows.
      rewrite Hloop in Hframe, Hgrows.
      destruct Hframe as (news & -> & _ & Hpre & _).
      destruct Hgrows as (_ & _ & Hfiles & _). simpl in Hpre, Hfiles.
      rewrite Nat.add_0_r, <- app_assoc, lookup_app_r by lia.
      rewrite Nat.sub_diag. simpl.
      eapply copy_position_resolved; [exact Hreq|exact Hrun|exact Hfiles|].
      eapply prefix_lookup_Some; [|exact Hpre].
      rewrite lookup_app_r by lia. by rewrite Nat.sub_diag.
    + simpl in Hb.
      replace (length acc + S i)%nat
        with (length (acc ++ [length (heap w)]) + i)%nat
        by (rewrite length_app; simpl; lia).
      eapply IH; [exact Hloop|exact Hb|]. simpl.
      by apply lookup_app_l_Some.
  - intros Hloop [|i] b o Hb Ho.
    + injection Hb as <-. rewrite Ho in Hreq. simpl in Hreq.
      apply update_request_None in Hreq as [Hm Hs].
      split; [by rewrite Hm|by rewrite Hs].
    + simpl in Hb.
      replace (length acc + S i)%nat with (length (acc ++ [b0]) + i)%nat
        by (rewrite length_app; simpl; lia).
      eapply IH; [exact Hloop|exact Hb|exact Ho].
Qed.
End Positions.

(** C7. [updateBlocks] resolves every media and slider block of its input,
    at the block's own position.  For a media block the returned sequence
    holds there a copy of the block whose [file] is the asset record that
    answers the block's file name; for a slider block, a copy whose [files]
    gathers the records that answer the block's file names, one for each:
    the records found in the store first, then the records uploaded, and
    the record itself when there is exactly one.  Hence in the returned
    sequence a media block has an asset record as its [file] and a slider
    block has asset records only in its [files]: no file name is left. *)
Theorem C7_blocks_resolved (E : Env) (w : World) (blocks : list loc)
    (out : list loc) (w' : World) :
  updateBlocks E blocks w = (Ok out, w') ->
  (forall i b o, blocks !! i = Some b -> heap w !! b = Some o ->
     position_resolved (files w') (heap w') o (out !! i))
  /\ forall c o, c ∈ out -> heap w' !! c = Some o ->
       (is_media o = true -> exists r, obj_get o "file" = VFile r)
       /\ (is_slider o = true ->
           (exists r, obj_get o "files" = VFile r)
           \/ (exists rs, obj_get o "files" = VList (VFile <$> rs))).
Proof.
  intros Hrun. split.
  - intros i b o Hb Ho.
    exact (updateBlocks_loop_positions E blocks [] w out w' Hrun i b o Hb Ho).
  - intros c o Hc Ho.
    eapply (updateBlocks_loop_resolved E blocks [] w out w' Hrun);
      [|exact Hc|exact Ho].
    intros c' o' Hc'. by apply elem_of_nil in Hc'.
Qed.

Lemma C7_blocks_resolved_witness :
  match updateBlocks quiet_env [0; 1; 2; 3]%nat world_with_blocks with
  | (Ok out, w') =>
      (forall i b o, [0; 1; 2; 3]%nat !! i = Some b ->
         heap world_with_blocks !! b = Some o ->
         position_resolved (files w') (heap w') o (out !! i))
      /\ forall c o, c ∈ out -> heap w' !! c = Some o ->
           (is_media o = true -> exists r, obj_get o "file" = VFile r)
           /\ (is_slider o = true ->
               (exists r, obj_get o "files" = VFile r)
               \/ (exists rs, obj_get o "files" = VList (VFile <$> rs)))
  | (Throw _, _) => False
  end.
Proof.
  assert (match (updateBlocks quiet_env [0; 1; 2; 3]%nat world_with_blocks).1 with
          | Ok _ => true
          | Throw _ => false
          end = true) as Hok by (vm_compute; reflexivity).
  destruct (updateBlocks quiet_env [0; 1; 2; 3]%nat world_with_blocks)
    as [[out|e] w'] eqn:Hrun; [|discriminate Hok].
  exact (C7_blocks_resolved quiet_env world_with_blocks [0; 1; 2; 3]%nat out w' Hrun).
Defined.

(** ** The batch of articles *)

Section Batch.
Variable E : Env.

Lemma assemble_all_cons a l w :
  assemble_all E (a :: l) w =
  match article_document E a w with
  | (Ok doc, w1) =>
      match assemble_all E l w1 with
      | (Ok docs, w2) => (Ok (doc :: docs), w2)
      | (Throw e, w2) => (Throw e, w2)
      end
  | (Throw e, w1) => (Throw e, w1)
  end.
Proof.
  simpl. rewrite bind_run.
  destruct (article_document E a w) as [[doc|e] w1]; [|done].
  rewrite bind_run. by destruct (assemble_all E l w1) as [[docs|e] w2].
Qed.

Lemma assemble_all_documents l w docs w0 :
  assemble_all E l w = (Ok docs, w0) -> Forall2 document_of l docs.
Proof.
  revert w docs. induction l as [|a l IH]; intros w docs.
  - intros [= <- _]. constructor.
  - rewrite assemble_all_cons.
    destruct (article_document E a w) as [[doc|e] w1] eqn:Hdoc; [|done].
    destruct (assemble_all E l w1) as [[docs1|e] w2] eqn:Hrest; [|done].
    intros [= <- <-]. constructor; [|by eapply IH].
    by destruct (article_document_assembled E a w w1 doc Hdoc) as (_ & _ & _ & _ & Hk).
Qed.

(** One creation, in a world with other documents and another console. *)
Lemma createDocument_set_dc doc d c w :
  createDocument E (js "api::article.article") doc (set_dc d c w)
  = (Ok tt, set_dc (d ++ List.filter (creatable E) [article_entry doc])
                   (c ++ omap (creation_log E) [article_entry doc]) w).
Proof.
  rewrite createDocument_run. unfold creation_log, creatable, article_entry.
  simpl. destruct (create_fault E (js "api::article.article") doc); simpl;
    by rewrite app_nil_r.
Qed.

(** The import of a batch, next to the assembly of its documents: when
    every document can be assembled the import returns normally, having
    created the documents the store accepts and logged the refusals, in
    order; it throws only when an assembly throws. *)
Lemma importArticles_loop_assemble l w d c :
  match assemble_all E l w with
  | (Ok docs, w0) =>
      importArticles_loop E l (set_dc d c w)
      = (Ok tt, set_dc (d ++ List.filter (creatable E) (article_entry <$> docs))
                       (c ++ omap (creation_log E) (article_entry <$> docs)) w0)
  | (Throw e, _) => (importArticles_loop E l (set_dc d c w)).1 = Throw e
  end.
Proof.
  revert w d c. induction l as [|a l IH]; intros w d c.
  { simpl. unfold ret. by rewrite !app_nil_r. }
  rewrite assemble_all_cons, importArticles_loop_cons, importArticle_run.
  rewrite (article_document_dc E a w d c).
  destruct (article_document E a w) as [[doc|e] w1]; [|done].
  cbv beta iota. unfold fst, snd. rewrite createDocument_set_dc.
  specialize (IH w1 (d ++ List.filter (creatable E) [article_entry doc])
                    (c ++ omap (creation_log E) [article_entry doc])).
  destruct (assemble_all E l w1) as [[docs|e] w2]; [|exact IH].
  rewrite IH, fmap_cons.
  assert (omap (creation_log E) (article_entry doc :: (article_entry <$> docs))
          = omap (creation_log E) [article_entry doc]
            ++ omap (creation_log E) (article_entry <$> docs)) as ->
    by (simpl; by destruct (creation_log E (article_entry doc))).
  assert (List.filter (creatable E) (article_entry doc :: (article_entry <$> docs))
          = List.filter (creatable E) [article_entry doc]
            ++ List.filter (creatable E) (article_entry <$> docs)) as ->
    by (simpl; by destruct (creatable E (article_entry doc))).
  by rewrite !app_assoc.
Qed.
End Batch.

(** C8. [createDocument] never throws: a document the content store
    accepts is added to the store, a refusal is logged with the model, the
    document and the error.  Consequently a refusal does not stop the import
    of the articles.  Its outcome is the one it has with a store that
    accepts everything.  When the document of every article of the batch can
    be assembled (no file resolution throws), the import returns normally:
    there is one document for each article, with the article's own
    properties; the documents the store accepts have all been created, in
    the order of the batch, whichever others are refused, and each refusal
    is logged; the rest of the world is as the assembly left it.  The import
    throws only when an assembly throws, and then that error. *)
Theorem C8_creation_failure_swallowed (E : Env) (w : World)
    (model : jsstring) (document : obj) :
  createDocument E model document w =
    match create_fault E model document with
    | None => (Ok tt, set_documents (documents w ++ [(model, document)]) w)
    | Some error =>
        (Ok tt, set_console (console w ++ [LogDocument model document error]) w)
    end
  /\ (importArticles E w).1 = (importArticles (never_failing E) w).1
  /\ match assemble_all E (articles E) w with
     | (Ok docs, w0) =>
         Forall2 document_of (articles E) docs
         /\ importArticles E w
            = (Ok tt,
               set_dc (documents w
                       ++ List.filter (creatable E) (article_entry <$> docs))
                      (console w
                       ++ omap (creation_log E) (article_entry <$> docs)) w0)
         /\ Forall (fun doc =>
                      create_fault E (js "api::article.article") doc = None ->
                      article_entry doc ∈ documents (importArticles E w).2) docs
     | (Throw e, _) => (importArticles E w).1 = Throw e
     end.
Proof.
  split; [apply createDocument_run|]. split.
  { unfold importArticles.
    destruct (importArticles_loop_compare E (articles E) w (documents w) (console w))
      as (docs & H1 & _).
    by rewrite set_dc_id in H1. }
  unfold importArticles.
  pose proof (importArticles_loop_assemble E (articles E) w (documents w) (console w))
    as Hrun.
  rewrite set_dc_id in Hrun.
  destruct (assemble_all E (articles E) w) as [[docs|e] w0] eqn:Hdocs; [|exact Hrun].
  split; [by eapply assemble_all_documents|]. split; [exact Hrun|].
  rewrite Hrun. apply Forall_forall. intros doc Hdoc Hfault. simpl.
  apply elem_of_app. right. apply list_elem_of_In, filter_In. split.
  - apply list_elem_of_In, list_elem_of_fmap. by exists doc.
  - unfold creatable. simpl. by rewrite Hfault.
Qed.
